(** * Crossword CSP solver ([crossword/generate.py]): model and properties

    A shallow embedding of the [CrosswordCreator] class: node consistency,
    [revise], AC-3, the consistency checks on assignments, the two ordering
    heuristics, the backtracking search and the letter grid.

    Python values are modelled as follows.
    - [str] is [string]; [w[k]] is [str_index], which raises [IndexError]
      out of range (all offsets in the program are non-negative).
    - A [dict] is an association list in insertion order ([dict_get],
      [dict_set], [dict_pop]); a [set] is a list in its iteration order.
    - [self.domains] is passed explicitly; a method that mutates it returns
      the new store next to its result.
    - Exceptions are the [Raise] case of [outcome].
    - The [while] loop of [ac3] and the recursion of [backtrack] take fuel;
      [None] means the fuel ran out. *)

From Stdlib Require Import List String Ascii Arith Bool Lia Permutation Sorted.
Import ListNotations.

Local Open Scope string_scope.
Local Open Scope nat_scope.
Local Open Scope list_scope.

(** ** Exceptions *)

Inductive exn : Type := KeyError | IndexError | TypeError.

Inductive outcome (A : Type) : Type :=
| Ok (a : A)
| Raise (e : exn).

Arguments Ok {A} a.
Arguments Raise {A} e.

Definition obind {A B : Type} (m : outcome A) (k : A -> outcome B) : outcome B :=
  match m with
  | Ok a => k a
  | Raise e => Raise e
  end.

Notation "x <- m ;; k" := (obind m (fun x => k))
  (at level 61, m at next level, right associativity).

Definition of_option {A : Type} (e : exn) (o : option A) : outcome A :=
  match o with
  | Some a => Ok a
  | None => Raise e
  end.

(** ** Puzzle structure

    The [crossword] module ([Variable], [Crossword]) is imported by
    [generate.py]; the solver only reads [variables], [words], [overlaps]
    and [neighbors] from it. *)

Inductive Direction : Type := ACROSS | DOWN.

Record Var : Type := mkVar {
  v_i : nat;
  v_j : nat;
  v_direction : Direction;
  v_length : nat
}.

Definition Direction_eqb (a b : Direction) : bool :=
  match a, b with
  | ACROSS, ACROSS | DOWN, DOWN => true
  | _, _ => false
  end.

(** [Variable.__eq__]: all four attributes match. *)
Definition Var_eqb (a b : Var) : bool :=
  (v_i a =? v_i b) && (v_j a =? v_j b)
  && Direction_eqb (v_direction a) (v_direction b)
  && (v_length a =? v_length b).

Definition Arc : Type := (Var * Var)%type.

Definition Arc_eqb (p q : Arc) : bool :=
  Var_eqb (fst p) (fst q) && Var_eqb (snd p) (snd q).

Definition Overlap : Type := option (nat * nat).

Record Crossword : Type := mkCrossword {
  variables : list Var;
  words : list string;
  overlaps : list (Arc * Overlap)
}.

(** ** Dictionaries in insertion order *)

Section Dict.
Context {K V : Type} (eqb : K -> K -> bool).

Fixpoint dict_get (d : list (K * V)) (k : K) : option V :=
  match d with
  | [] => None
  | (k', v) :: d' => if eqb k' k then Some v else dict_get d' k
  end.

Definition dict_mem (d : list (K * V)) (k : K) : bool :=
  match dict_get d k with
  | Some _ => true
  | None => false
  end.

(** [d[k] = v]: an existing key keeps its position, a new one goes last. *)
Fixpoint dict_set (d : list (K * V)) (k : K) (v : V) : list (K * V) :=
  match d with
  | [] => [(k, v)]
  | (k', v') :: d' =>
      if eqb k' k then (k', v) :: d' else (k', v') :: dict_set d' k v
  end.

(** [d.pop(k, None)] *)
Fixpoint dict_pop (d : list (K * V)) (k : K) : list (K * V) :=
  match d with
  | [] => []
  | (k', v') :: d' => if eqb k' k then d' else (k', v') :: dict_pop d' k
  end.

Definition dict_keys (d : list (K * V)) : list K := map fst d.
End Dict.

Definition Domains : Type := list (Var * list string).
Definition Assignment : Type := list (Var * string).

Definition domain_of (doms : Domains) (v : Var) : outcome (list string) :=
  of_option KeyError (dict_get Var_eqb doms v).

Definition overlap_of (cw : Crossword) (x y : Var) : outcome Overlap :=
  of_option KeyError (dict_get Arc_eqb (overlaps cw) (x, y)).

(** [w[k]] for a non-negative [k]. *)
Definition str_index (w : string) (k : nat) : outcome ascii :=
  of_option IndexError (String.get k w).

(** Modelled from the spec: [Crossword.neighbors] is defined in the
    [crossword] module; the neighbors of [var] are the other variables whose
    overlap with [var] is defined. *)
Definition neighbors (cw : Crossword) (var : Var) : list Var :=
  filter (fun v =>
            negb (Var_eqb v var) &&
            match dict_get Arc_eqb (overlaps cw) (v, var) with
            | Some (Some _) => true
            | _ => false
            end)
         (variables cw).

(** ** [CrosswordCreator.__init__] *)

Definition init_domains (cw : Crossword) : Domains :=
  map (fun var => (var, words cw)) (variables cw).

(** ** [enforce_node_consistency] *)

Definition enforce_node_consistency (doms : Domains) : Domains :=
  map (fun '(v, ws) =>
         (v, filter (fun word => String.length word =? v_length v) ws))
      doms.

(** ** [revise] *)

(** The inner loop over [self.domains[y]]: [hasValue] at the [break] or at
    the end of the loop. *)
Fixpoint has_value (i j : nat) (xWord : string) (dy : list string)
  : outcome bool :=
  match dy with
  | [] => Ok false
  | yWord :: dy' =>
      cx <- str_index xWord i ;;
      cy <- str_index yWord j ;;
      if Ascii.eqb cx cy then Ok true else has_value i j xWord dy'
  end.

(** The outer loop over [self.domains[x]], carrying [consistentDomain] and
    [revisionMade]. *)
Fixpoint revise_loop (doms : Domains) (y : Var) (i j : nat)
    (dx : list string) (consistentDomain : list string) (revisionMade : bool)
  : outcome (list string * bool) :=
  match dx with
  | [] => Ok (consistentDomain, revisionMade)
  | xWord :: dx' =>
      dy <- domain_of doms y ;;
      hasValue <- has_value i j xWord dy ;;
      if hasValue
      then revise_loop doms y i j dx' (consistentDomain ++ [xWord]) revisionMade
      else revise_loop doms y i j dx' consistentDomain false
  end.

Definition revise (cw : Crossword) (doms : Domains) (x y : Var)
  : outcome bool * Domains :=
  match overlap_of cw x y with
  | Raise e => (Raise e, doms)
  | Ok None => (Ok false, doms)
  | Ok (Some (i, j)) =>
      match domain_of doms x with
      | Raise e => (Raise e, doms)
      | Ok dx =>
          match revise_loop doms y i j dx [] true with
          | Raise e => (Raise e, doms)
          | Ok (consistentDomain, revisionMade) =>
              (Ok revisionMade, dict_set Var_eqb doms x consistentDomain)
          end
      end
  end.

(** ** [ac3] *)

Definition ac3_neighbors (cw : Crossword) (x y : Var) : list Var :=
  map snd
      (filter (fun a : Arc => Var_eqb (fst a) x && negb (Var_eqb (snd a) y))
              (dict_keys (overlaps cw))).

Fixpoint ac3_loop (fuel : nat) (cw : Crossword) (arcs : list Arc)
    (doms : Domains) : option (outcome bool * Domains) :=
  match arcs with
  | [] => Some (Ok true, doms)
  | (x, y) :: arcs' =>
      match fuel with
      | 0 => None
      | S fuel' =>
          match revise cw doms x y with
          | (Raise e, doms') => Some (Raise e, doms')
          | (Ok false, doms') => ac3_loop fuel' cw arcs' doms'
          | (Ok true, doms') =>
              match domain_of doms' x with
              | Raise e => Some (Raise e, doms')
              | Ok [] => Some (Ok false, doms')
              | Ok (_ :: _) =>
                  ac3_loop fuel' cw
                           (arcs' ++ map (fun neighbor => (neighbor, x))
                                         (ac3_neighbors cw x y))
                           doms'
              end
          end
      end
  end.

(** [if not arcs]: both [None] and the empty list are falsy. *)
Definition ac3 (fuel : nat) (cw : Crossword) (arcs : option (list Arc))
    (doms : Domains) : option (outcome bool * Domains) :=
  let arcs :=
    match arcs with
    | None | Some [] => dict_keys (overlaps cw)
    | Some (a :: l) => a :: l
    end in
  ac3_loop fuel cw arcs doms.

(** ** [assignment_complete] *)

Definition str_truthy (s : string) : bool :=
  match s with
  | EmptyString => false
  | String _ _ => true
  end.

Definition assignment_complete (cw : Crossword) (assignment : Assignment)
  : bool :=
  forallb (fun v =>
             match dict_get Var_eqb assignment v with
             | None => false
             | Some word => str_truthy word
             end)
          (variables cw).

(** ** [consistent] *)

Definition str_mem (w : string) (l : list string) : bool :=
  existsb (String.eqb w) l.

(** First loop: uniqueness and length of every bound word. *)
Fixpoint consistent_words (items : Assignment) (allWords : list string)
  : bool :=
  match items with
  | [] => true
  | (v, word) :: items' =>
      if negb (str_mem word allWords)
      then
        if negb (v_length v =? String.length word)
        then false
        else consistent_words items' (allWords ++ [word])
      else false
  end.

(** Truth value of a list: only the empty list is falsy. *)
Definition list_truthy {A : Type} (l : list A) : bool :=
  match l with
  | [] => false
  | _ :: _ => true
  end.

Definition is_not_None (overlap : Overlap) : bool :=
  match overlap with
  | Some _ => true
  | None => false
  end.

(** Second loop, over the keys of [overlaps]. The test at line 215 is the
    truth value of the one-element list [[overlap != None]]; the comparison
    of the two characters sits in its [else] branch. *)
Fixpoint consistent_conflicts (cw : Crossword) (assignment : Assignment)
    (keys : list Arc) : outcome bool :=
  match keys with
  | [] => Ok true
  | (x, y) :: keys' =>
      if dict_mem Var_eqb assignment x && dict_mem Var_eqb assignment y
      then
        xWord <- of_option KeyError (dict_get Var_eqb assignment x) ;;
        yWord <- of_option KeyError (dict_get Var_eqb assignment y) ;;
        overlap <- overlap_of cw x y ;;
        if list_truthy [is_not_None overlap]
        then consistent_conflicts cw assignment keys'
        else
          match overlap with
          | None => Raise TypeError
          | Some (i, j) =>
              cx <- str_index xWord i ;;
              cy <- str_index yWord j ;;
              if negb (Ascii.eqb cx cy)
              then Ok false
              else consistent_conflicts cw assignment keys'
          end
      else consistent_conflicts cw assignment keys'
  end.

Definition consistent (cw : Crossword) (assignment : Assignment)
  : outcome bool :=
  if consistent_words assignment []
  then consistent_conflicts cw assignment (dict_keys (overlaps cw))
  else Ok false.

(** ** [sorted]: a stable sort

    [sorted_by le l] keeps elements that [le] relates both ways in their
    original order, as [sorted(..., key=...)] does, also with
    [reverse=True]. *)

Section Sorted.
Context {A : Type} (le : A -> A -> bool).

Fixpoint insert_by (x : A) (l : list A) : list A :=
  match l with
  | [] => [x]
  | y :: l' => if le x y then x :: y :: l' else y :: insert_by x l'
  end.

Fixpoint sorted_by (l : list A) : list A :=
  match l with
  | [] => []
  | x :: l' => insert_by x (sorted_by l')
  end.
End Sorted.

Definition by_value_asc {A : Type} (p q : A * nat) : bool := snd p <=? snd q.
Definition by_value_desc {A : Type} (p q : A * nat) : bool := snd q <=? snd p.

(** ** [select_unassigned_variable] *)

Definition unassigned_variables (cw : Crossword) (assignment : Assignment)
  : list Var :=
  filter (fun v => negb (dict_mem Var_eqb assignment v)) (variables cw).

Fixpoint num_remaining_values (doms : Domains) (vs : list Var)
  : outcome (list (Var * nat)) :=
  match vs with
  | [] => Ok []
  | variable :: vs' =>
      d <- domain_of doms variable ;;
      rest <- num_remaining_values doms vs' ;;
      Ok ((variable, List.length d) :: rest)
  end.

Definition num_degrees (cw : Crossword) (vs : list Var) : list (Var * nat) :=
  map (fun variable => (variable, List.length (neighbors cw variable))) vs.

Definition select_unassigned_variable (cw : Crossword) (doms : Domains)
    (assignment : Assignment) : outcome Var :=
  let unassigned := unassigned_variables cw assignment in
  remaining <- num_remaining_values doms unassigned ;;
  match sorted_by by_value_asc remaining with
  | [] => Raise IndexError
  | [p] => Ok (fst p)
  | p :: q :: _ =>
      if negb (snd p =? snd q)
      then Ok (fst p)
      else
        match sorted_by by_value_desc (num_degrees cw unassigned) with
        | [] => Raise IndexError
        | d :: _ => Ok (fst d)
        end
  end.

(** ** [order_domain_values] *)

Definition Counts : Type := list (string * nat).

(** [{word: 0 for word in self.domains[var]}] *)
Fixpoint zero_counts (ws : list string) (acc : Counts) : Counts :=
  match ws with
  | [] => acc
  | word :: ws' => zero_counts ws' (dict_set String.eqb acc word 0)
  end.

(** Loop over the words of one neighbor's domain. *)
Fixpoint count_words (overlap : Overlap) (word_var : string)
    (dn : list string) (num : Counts) : outcome Counts :=
  match dn with
  | [] => Ok num
  | word_n :: dn' =>
      match overlap with
      | None => Raise TypeError
      | Some (i, j) =>
          cv <- str_index word_var i ;;
          cn <- str_index word_n j ;;
          if negb (Ascii.eqb cv cn)
          then
            k <- of_option KeyError (dict_get String.eqb num word_var) ;;
            count_words overlap word_var dn'
                        (dict_set String.eqb num word_var (k + 1))
          else count_words overlap word_var dn' num
      end
  end.

(** Loop over the unassigned neighbors of [var]. *)
Fixpoint count_neighbors (cw : Crossword) (doms : Domains) (var : Var)
    (word_var : string) (ns : list Var) (num : Counts) : outcome Counts :=
  match ns with
  | [] => Ok num
  | neighbor :: ns' =>
      overlap <- overlap_of cw var neighbor ;;
      dn <- domain_of doms neighbor ;;
      num' <- count_words overlap word_var dn num ;;
      count_neighbors cw doms var word_var ns' num'
  end.

(** Loop over the words of [var]'s domain. *)
Fixpoint count_domain (cw : Crossword) (doms : Domains) (var : Var)
    (ns : list Var) (ws : list string) (num : Counts) : outcome Counts :=
  match ws with
  | [] => Ok num
  | word_var :: ws' =>
      num' <- count_neighbors cw doms var word_var ns num ;;
      count_domain cw doms var ns ws' num'
  end.

Definition unassigned_neighbors (cw : Crossword) (assignment : Assignment)
    (var : Var) : list Var :=
  filter (fun v => negb (dict_mem Var_eqb assignment v)) (neighbors cw var).

Definition order_domain_values (cw : Crossword) (doms : Domains) (var : Var)
    (assignment : Assignment) : outcome (list string) :=
  dv <- domain_of doms var ;;
  let num_choices_eliminated := zero_counts dv [] in
  let ns := unassigned_neighbors cw assignment var in
  num <- count_domain cw doms var ns dv num_choices_eliminated ;;
  Ok (map fst (sorted_by by_value_asc num)).

(** ** [backtrack]

    The dictionary [assignment] is shared by all recursive calls and mutated
    in place: a call returns its result together with the dictionary as it
    left it. A returned assignment is that same dictionary. *)

Fixpoint backtrack (fuel : nat) (cw : Crossword) (doms : Domains)
    (assignment : Assignment)
  : option (outcome (option Assignment) * Assignment) :=
  match fuel with
  | 0 => None
  | S fuel' =>
      if assignment_complete cw assignment
      then Some (Ok (Some assignment), assignment)
      else
        match select_unassigned_variable cw doms assignment with
        | Raise e => Some (Raise e, assignment)
        | Ok var =>
            match order_domain_values cw doms var assignment with
            | Raise e => Some (Raise e, assignment)
            | Ok values =>
                (fix try (values : list string) (assignment : Assignment)
                   {struct values} :=
                   match values with
                   | [] => Some (Ok None, assignment)
                   | value :: values' =>
                       let test_assignment :=
                         dict_set Var_eqb assignment var value in
                       match consistent cw test_assignment with
                       | Raise e => Some (Raise e, assignment)
                       | Ok false =>
                           try values' (dict_pop Var_eqb assignment var)
                       | Ok true =>
                           match backtrack fuel' cw doms
                                   (dict_set Var_eqb assignment var value) with
                           | None => None
                           | Some (Raise e, a') => Some (Raise e, a')
                           | Some (Ok (Some result), a') =>
                               Some (Ok (Some result), a')
                           | Some (Ok None, a') =>
                               try values' (dict_pop Var_eqb a' var)
                           end
                       end
                   end) values assignment
            end
        end
  end.

(** ** [solve]

    The value returned by [ac3] is discarded. *)

Definition solve (fuel : nat) (cw : Crossword) (doms : Domains)
  : option (outcome (option Assignment) * Domains) :=
  let doms1 := enforce_node_consistency doms in
  match ac3 fuel cw None doms1 with
  | None => None
  | Some (Raise e, doms2) => Some (Raise e, doms2)
  | Some (Ok _, doms2) =>
      match backtrack fuel cw doms2 [] with
      | None => None
      | Some (r, _) => Some (r, doms2)
      end
  end.

(** [CrosswordCreator(crossword).solve()] *)
Definition create_and_solve (fuel : nat) (cw : Crossword)
  : option (outcome (option Assignment) * Domains) :=
  solve fuel cw (init_domains cw).


(** ** [letter_grid]

    [self.crossword.height] and [self.crossword.width] are read from the
    puzzle structure; they are parameters here. A cell holds [None] or a
    letter. *)

Definition Grid : Type := list (list (option ascii)).

(** [[[None for _ in range(width)] for _ in range(height)]] *)
Definition blank_grid (height width : nat) : Grid :=
  repeat (repeat None width) height.

(** [l[n]] and [l[n] = x] for a non-negative [n]. *)
Definition list_index {A : Type} (l : list A) (n : nat) : outcome A :=
  of_option IndexError (nth_error l n).

Fixpoint list_assign {A : Type} (l : list A) (n : nat) (x : A)
  : outcome (list A) :=
  match l, n with
  | [], _ => Raise IndexError
  | _ :: l', 0 => Ok (x :: l')
  | y :: l', S n' => l'' <- list_assign l' n' x ;; Ok (y :: l'')
  end.

(** [letters[i][j] = c]: the row [letters[i]] is fetched, then updated in
    place. *)
Definition grid_assign (letters : Grid) (i j : nat) (c : ascii)
  : outcome Grid :=
  row <- list_index letters i ;;
  row' <- list_assign row j (Some c) ;;
  list_assign letters i row'.

Definition is_DOWN (d : Direction) : bool := Direction_eqb d DOWN.
Definition is_ACROSS (d : Direction) : bool := Direction_eqb d ACROSS.

(** The loop [for k in range(len(word))], from index [k] on; [chars] is
    [word[k:]]. *)
Fixpoint write_word (variable : Var) (chars : string) (k : nat)
    (letters : Grid) : outcome Grid :=
  match chars with
  | EmptyString => Ok letters
  | String c chars' =>
      let direction := v_direction variable in
      let i := v_i variable + (if is_DOWN direction then k else 0) in
      let j := v_j variable + (if is_ACROSS direction then k else 0) in
      letters' <- grid_assign letters i j c ;;
      write_word variable chars' (S k) letters'
  end.

Fixpoint write_items (items : Assignment) (letters : Grid) : outcome Grid :=
  match items with
  | [] => Ok letters
  | (variable, word) :: items' =>
      letters' <- write_word variable word 0 letters ;;
      write_items items' letters'
  end.

Definition letter_grid (height width : nat) (assignment : Assignment)
  : outcome Grid :=
  write_items assignment (blank_grid height width).
(** * Specification vocabulary *)

(** [doms'] has the keys of [doms] in the same order, and every entry is a
    subset of the one it replaces and no longer than it. *)
Definition shrinks_to (doms doms' : Domains) : Prop :=
  Forall2 (fun p p' : Var * list string =>
             fst p' = fst p /\
             incl (snd p') (snd p) /\
             List.length (snd p') <= List.length (snd p))
          doms doms'.

(** The characters at offsets [i] and [j] exist and are equal. *)
Definition chars_match (i j : nat) (w w2 : string) : bool :=
  match String.get i w, String.get j w2 with
  | Some c, Some c2 => Ascii.eqb c c2
  | _, _ => false
  end.

Definition supported (i j : nat) (dy : list string) (w : string) : bool :=
  existsb (chars_match i j w) dy.


(** What the specification asks of a committed assignment. *)

Definition binds_every_variable (cw : Crossword) (a : Assignment) : Prop :=
  forall v, In v (variables cw) -> exists w, dict_get Var_eqb a v = Some w.

Definition lengths_correct (a : Assignment) : Prop :=
  forall v w, In (v, w) a -> String.length w = v_length v.

Definition words_distinct (a : Assignment) : Prop :=
  NoDup (map snd a).

(** Every pair of bound variables with a defined overlap carries the same
    character at the two offsets. *)
Definition overlaps_agree (cw : Crossword) (a : Assignment) : Prop :=
  forall x y i j wx wy,
    dict_get Arc_eqb (overlaps cw) (x, y) = Some (Some (i, j)) ->
    dict_get Var_eqb a x = Some wx ->
    dict_get Var_eqb a y = Some wy ->
    exists c, String.get i wx = Some c /\ String.get j wy = Some c.

Definition consistent_spec (cw : Crossword) (a : Assignment) : Prop :=
  words_distinct a /\ lengths_correct a /\ overlaps_agree cw a.

Definition valid_solution (cw : Crossword) (a : Assignment) : Prop :=
  binds_every_variable cw a /\ consistent_spec cw a.

(** Number of words of the unassigned neighbors' domains that [w], placed
    in [var], conflicts with at the shared offsets. *)
Definition conflicts (overlap : Overlap) (w w2 : string) : bool :=
  match overlap with
  | Some (i, j) => negb (chars_match i j w w2)
  | None => false
  end.

Definition eliminated_in (cw : Crossword) (doms : Domains) (var : Var)
    (w : string) (n : Var) : nat :=
  match dict_get Arc_eqb (overlaps cw) (var, n), dict_get Var_eqb doms n with
  | Some overlap, Some dn => List.length (filter (conflicts overlap w) dn)
  | _, _ => 0
  end.

(** The sum of these numbers over the list of neighbors that
    [order_domain_values] goes through. *)
Definition eliminated (cw : Crossword) (doms : Domains) (a : Assignment)
    (var : Var) (w : string) : nat :=
  list_sum (map (eliminated_in cw doms var w) (unassigned_neighbors cw a var)).

(** The overlap of the ordered pair [(x, y)] is defined. *)
Definition crosses (cw : Crossword) (x y : Var) : bool :=
  match dict_get Arc_eqb (overlaps cw) (x, y) with
  | Some (Some _) => true
  | _ => false
  end.

(** [n] is a key of the assignment. *)
Definition binds (a : Assignment) (n : Var) : bool :=
  existsb (fun k => Var_eqb k n) (map fst a).

(** [n] is an unassigned neighbor of [var]: another variable, which crosses
    [var], and which the assignment does not bind. *)
Definition unassigned_neighbor_of (cw : Crossword) (a : Assignment)
    (var n : Var) : bool :=
  negb (Var_eqb n var) && crosses cw var n && negb (binds a n).

(** The number of values that [w], placed in [var], rules out: over every
    variable of the puzzle that is an unassigned neighbor of [var], the
    words of its current domain that conflict with [w] at the shared
    offsets. *)
Definition values_ruled_out (cw : Crossword) (doms : Domains)
    (a : Assignment) (var : Var) (w : string) : nat :=
  list_sum
    (map (fun n =>
            if unassigned_neighbor_of cw a var n
            then eliminated_in cw doms var w n
            else 0)
         (variables cw)).

(** Crossing is mutual for [var]: a variable crosses [var] exactly when
    [var] crosses it. *)
Definition crossing_mutual (cw : Crossword) (var : Var) : Prop :=
  forall n, In n (variables cw) -> crosses cw n var = crosses cw var n.

(** Every unassigned neighbor of [var] has a domain, and the offsets of its
    overlap with [var] lie inside the words of the two domains. *)
Definition offsets_in_range (cw : Crossword) (doms : Domains)
    (a : Assignment) (var : Var) (dv : list string) : Prop :=
  forall n i j,
    In n (variables cw) ->
    unassigned_neighbor_of cw a var n = true ->
    dict_get Arc_eqb (overlaps cw) (var, n) = Some (Some (i, j)) ->
    exists dn,
      dict_get Var_eqb doms n = Some dn /\
      (forall w, In w dv -> i < String.length w) /\
      (forall w2, In w2 dn -> j < String.length w2).

(** Size of a variable's current domain. *)
Definition domain_size (doms : Domains) (v : Var) : nat :=
  match dict_get Var_eqb doms v with
  | Some d => List.length d
  | None => 0
  end.

(** ** Example puzzles *)

(** Two slots of length 2 sharing their first cell:
<<
    _ _
    _ #
>> *)
Definition corner_across : Var := mkVar 0 0 ACROSS 2.
Definition corner_down : Var := mkVar 0 0 DOWN 2.

Definition corner : Crossword :=
  mkCrossword [corner_across; corner_down] ["AB"; "CD"]
    [((corner_across, corner_down), Some (0, 0));
     ((corner_down, corner_across), Some (0, 0))].

(** A slot of length 2 across and one of length 3 down sharing their first
    cell, with one word of each length and no common first letter. *)
Definition ell_across : Var := mkVar 0 0 ACROSS 2.
Definition ell_down : Var := mkVar 0 0 DOWN 3.

Definition ell : Crossword :=
  mkCrossword [ell_across; ell_down] ["AB"; "CDE"]
    [((ell_across, ell_down), Some (0, 0));
     ((ell_down, ell_across), Some (0, 0))].

(** A 3x3 grid with the centre blocked: four slots of length 3 around it,
    every word of the vocabulary fits everywhere. *)
Definition ring_top : Var := mkVar 0 0 ACROSS 3.
Definition ring_bottom : Var := mkVar 2 0 ACROSS 3.
Definition ring_left : Var := mkVar 0 0 DOWN 3.
Definition ring_right : Var := mkVar 0 2 DOWN 3.

Definition ring : Crossword :=
  mkCrossword [ring_top; ring_bottom; ring_left; ring_right] ["AAA"]
    [((ring_top, ring_bottom), None);
     ((ring_top, ring_left), Some (0, 0));
     ((ring_top, ring_right), Some (2, 0));
     ((ring_bottom, ring_top), None);
     ((ring_bottom, ring_left), Some (0, 2));
     ((ring_bottom, ring_right), Some (2, 2));
     ((ring_left, ring_top), Some (0, 0));
     ((ring_left, ring_bottom), Some (2, 0));
     ((ring_left, ring_right), None);
     ((ring_right, ring_top), Some (0, 2));
     ((ring_right, ring_bottom), Some (2, 2));
     ((ring_right, ring_left), None)].

(** A slot of length 3 across the top with a slot of length 2 hanging from
    each end:
<<
    _ _ _
    _ # _
>> *)
Definition bridge_across : Var := mkVar 0 0 ACROSS 3.
Definition bridge_left : Var := mkVar 0 0 DOWN 2.
Definition bridge_right : Var := mkVar 0 2 DOWN 2.

Definition bridge : Crossword :=
  mkCrossword [bridge_left; bridge_right; bridge_across]
    ["AB"; "ABA"; "ACA"; "ADA"; "AEA"; "AFA"]
    [((bridge_left, bridge_right), None);
     ((bridge_left, bridge_across), Some (0, 0));
     ((bridge_right, bridge_left), None);
     ((bridge_right, bridge_across), Some (0, 2));
     ((bridge_across, bridge_left), Some (0, 0));
     ((bridge_across, bridge_right), Some (2, 0))].

(** [num[w] += k] for a key [w] of [num]. *)
Definition dict_add (num : Counts) (w : string) (k : nat) : Counts :=
  match dict_get String.eqb num w with
  | Some k0 => dict_set String.eqb num w (k0 + k)
  | None => num
  end.

(** The domain store at the end of a call that returned, [doms] itself
    while the call is still running. *)
Definition store_after {A : Type} (doms : Domains)
    (run : option (A * Domains)) : Domains :=
  match run with
  | Some (_, doms') => doms'
  | None => doms
  end.

(** [ring] with its set of variables and its overlap dictionary iterated in
    another order. *)
Definition ring_in_order (vs : list Var) (ov : list (Arc * Overlap))
  : Crossword :=
  mkCrossword vs (words ring) ov.

(** The arc has a defined overlap in [ring]. *)
Definition ring_crossing (a : Arc) : bool :=
  match dict_get Arc_eqb (overlaps ring) a with
  | Some (Some _) => true
  | _ => false
  end.

(** The neighbor [n] of [var] can be compared with [word_var]: its overlap
    with [var] is defined, it has a domain, and the two offsets lie inside
    the words. *)
Definition comparable (cw : Crossword) (doms : Domains) (var : Var)
    (word_var : string) (n : Var) : Prop :=
  exists i j dn,
    overlap_of cw var n = Ok (Some (i, j)) /\
    domain_of doms n = Ok dn /\
    i < String.length word_var /\
    (forall w2, In w2 dn -> j < String.length w2).

(** [bridge] with two words for the across slot and three for the down
    slots. *)
Definition trestle : Crossword :=
  mkCrossword (variables bridge) ["ABC"; "CBA"; "AB"; "AD"; "CE"]
    (overlaps bridge).

(** [corner] with a vocabulary of four words. *)
Definition quartet : Crossword :=
  mkCrossword [corner_across; corner_down] ["AB"; "CD"; "CB"; "CE"]
    (overlaps corner).

(** The iteration order of a Python set is not fixed by the program: the
    example puzzles in every order of two-element sets and dictionaries. *)
Definition both_orders {A : Type} (l : list A) : list (list A) := [l; rev l].

Definition corner_orders : list Crossword :=
  flat_map (fun vs =>
    flat_map (fun ws =>
      map (fun ov => mkCrossword vs ws ov) (both_orders (overlaps corner)))
      (both_orders (words corner)))
    (both_orders (variables corner)).

Definition ell_orders : list Crossword :=
  flat_map (fun vs =>
    flat_map (fun ws =>
      map (fun ov => mkCrossword vs ws ov) (both_orders (overlaps ell)))
      (both_orders (words ell)))
    (both_orders (variables ell)).

Definition bridge_orders : list Crossword :=
  map (fun vs => mkCrossword vs (words bridge) (overlaps bridge))
      [[bridge_left; bridge_right; bridge_across];
       [bridge_left; bridge_across; bridge_right];
       [bridge_right; bridge_left; bridge_across];
       [bridge_right; bridge_across; bridge_left];
       [bridge_across; bridge_left; bridge_right];
       [bridge_across; bridge_right; bridge_left]].

(** The words bound to the two slots of [corner] put different letters in
    the shared cell. *)
Definition corner_clash (a : Assignment) : bool :=
  match dict_get Var_eqb a corner_across, dict_get Var_eqb a corner_down with
  | Some wx, Some wy => negb (chars_match 0 0 wx wy)
  | _, _ => false
  end.

Definition all_empty (doms : Domains) : bool :=
  forallb (fun p : Var * list string => negb (list_truthy (snd p))) doms.

(** ** Vocabulary for the further properties *)

(** Every word of every domain has the length of its variable. *)
Definition node_consistent (doms : Domains) : Prop :=
  Forall (fun p : Var * list string =>
            Forall (fun w => String.length w = v_length (fst p)) (snd p))
         doms.

(** Two slots of length 2 in rows 0 and 2 that do not cross. *)
Definition rail_top : Var := mkVar 0 0 ACROSS 2.
Definition rail_bottom : Var := mkVar 2 0 ACROSS 2.

Definition rails : Crossword :=
  mkCrossword [rail_top; rail_bottom] ["AB"; "CD"]
    [((rail_top, rail_bottom), None); ((rail_bottom, rail_top), None)].

(** Every variable of the puzzle has an entry in the store. *)
Definition domains_cover (cw : Crossword) (doms : Domains) : Prop :=
  forall v, In v (variables cw) -> exists d, dict_get Var_eqb doms v = Some d.

(** The loop of [backtrack] over the candidate values of [var], with the
    recursive call as a parameter. *)
Section TryValues.
Variable cw : Crossword.
Variable rec : Assignment -> option (outcome (option Assignment) * Assignment).
Variable var : Var.

Fixpoint try_values (values : list string) (assignment : Assignment)
    {struct values} : option (outcome (option Assignment) * Assignment) :=
  match values with
  | [] => Some (Ok None, assignment)
  | value :: values' =>
      let test_assignment := dict_set Var_eqb assignment var value in
      match consistent cw test_assignment with
      | Raise e => Some (Raise e, assignment)
      | Ok false => try_values values' (dict_pop Var_eqb assignment var)
      | Ok true =>
          match rec (dict_set Var_eqb assignment var value) with
          | None => None
          | Some (Raise e, a') => Some (Raise e, a')
          | Some (Ok (Some result), a') => Some (Ok (Some result), a')
          | Some (Ok None, a') => try_values values' (dict_pop Var_eqb a' var)
          end
      end
  end.
End TryValues.

(** [b] binds every variable that [a] binds, to the same word. *)
Definition extends (a b : Assignment) : Prop :=
  forall v w, dict_get Var_eqb a v = Some w -> dict_get Var_eqb b v = Some w.

(** Every word that [b] gives to a variable of the puzzle is in the
    variable's domain. *)
Definition drawn_from (cw : Crossword) (doms : Domains) (b : Assignment)
  : Prop :=
  forall v w, In v (variables cw) -> dict_get Var_eqb b v = Some w ->
              exists dv, dict_get Var_eqb doms v = Some dv /\ In w dv.

(** What a returned assignment [r] owes to the assignment [a] the search
    started from: it is complete, keeps the bindings of [a], passes the
    word checks of [consistent] if [a] did, and takes every other word from
    the domain of its variable. *)
Definition found_from (cw : Crossword) (doms : Domains) (a r : Assignment)
  : Prop :=
  assignment_complete cw r = true /\
  extends a r /\
  (consistent_words a [] = true -> consistent_words r [] = true) /\
  (forall v w, dict_get Var_eqb r v = Some w ->
               dict_get Var_eqb a v = Some w \/
               exists dv, dict_get Var_eqb doms v = Some dv /\ In w dv).

(** [b] is a complete assignment of the puzzle that [consistent] accepts,
    with every word taken from the domain of its variable. *)
Definition accepted_solution (cw : Crossword) (doms : Domains)
    (b : Assignment) : Prop :=
  assignment_complete cw b = true /\
  consistent cw b = Ok true /\
  drawn_from cw doms b.

(** *** The letter grid *)

(** The content of cell [(r, c)]: [None] outside the grid. *)
Definition cell (g : Grid) (r c : nat) : option (option ascii) :=
  match nth_error g r with
  | Some row => nth_error row c
  | None => None
  end.

Definition rectangular (height width : nat) (g : Grid) : Prop :=
  List.length g = height /\ Forall (fun row => List.length row = width) g.

(** The letter that [chars], laid along [v] from its [k]-th cell on, puts
    in cell [(r, c)], if it reaches that cell. *)
Definition letter_from (v : Var) (chars : string) (k r c : nat)
  : option ascii :=
  match v_direction v with
  | ACROSS =>
      if (r =? v_i v) && (v_j v + k <=? c)
      then String.get (c - (v_j v + k)) chars
      else None
  | DOWN =>
      if (c =? v_j v) && (v_i v + k <=? r)
      then String.get (r - (v_i v + k)) chars
      else None
  end.

(** The letter of cell [(r, c)] under an assignment: that of the last
    binding, in the order of the dictionary, whose word reaches the cell. *)
Fixpoint letter_at (a : Assignment) (r c : nat) : option ascii :=
  match a with
  | [] => None
  | (v, word) :: a' =>
      match letter_at a' r c with
      | Some ch => Some ch
      | None => letter_from v word 0 r c
      end
  end.

(** [chars], laid along [v] from its [k]-th cell on, stays inside a grid of
    the given size. *)
Definition fits_from (height width : nat) (v : Var) (k : nat)
    (chars : string) : Prop :=
  chars = "" \/
  match v_direction v with
  | ACROSS => v_i v < height /\ v_j v + k + String.length chars <= width
  | DOWN => v_j v < width /\ v_i v + k + String.length chars <= height
  end.

(** Wherever the words of two bindings reach the same cell, they put the
    same letter there. *)
Definition agree_on_cells (a : Assignment) : Prop :=
  forall p q r c x y,
    In p a -> In q a ->
    letter_from (fst p) (snd p) 0 r c = Some x ->
    letter_from (fst q) (snd q) 0 r c = Some y ->
    x = y.

(** Row and column of the [k]-th cell of a variable. *)
Definition row_of (v : Var) (k : nat) : nat :=
  v_i v + (if is_DOWN (v_direction v) then k else 0).

Definition col_of (v : Var) (k : nat) : nat :=
  v_j v + (if is_ACROSS (v_direction v) then k else 0).
(** * Properties *)

(** ** Equality tests and dictionaries *)

Lemma Direction_eqb_eq (a b : Direction) : Direction_eqb a b = true <-> a = b.
Proof. destruct a, b; simpl; split; congruence. Qed.

Lemma Var_eqb_eq (a b : Var) : Var_eqb a b = true <-> a = b.
Proof.
  unfold Var_eqb. rewrite !andb_true_iff, !Nat.eqb_eq, Direction_eqb_eq.
  destruct a, b; simpl. split.
  - intros [[[-> ->] ->] ->]. reflexivity.
  - intros E. injection E as -> -> -> ->. auto.
Qed.

Lemma Var_eqb_refl (a : Var) : Var_eqb a a = true.
Proof. apply Var_eqb_eq. reflexivity. Qed.

Lemma Arc_eqb_eq (p q : Arc) : Arc_eqb p q = true <-> p = q.
Proof.
  unfold Arc_eqb. rewrite andb_true_iff, !Var_eqb_eq.
  destruct p, q; simpl. split.
  - intros [-> ->]. reflexivity.
  - intros E. injection E as -> ->. auto.
Qed.

Section DictFacts.
Context {K V : Type} (eqb : K -> K -> bool).
Hypothesis eqb_eq : forall a b, eqb a b = true <-> a = b.

Lemma dict_get_set_same (d : list (K * V)) k v :
  dict_get eqb (dict_set eqb d k v) k = Some v.
Proof.
  induction d as [|[k' v'] d IH]; simpl.
  - replace (eqb k k) with true; [reflexivity|].
    symmetry. apply eqb_eq. reflexivity.
  - destruct (eqb k' k) eqn:E; simpl; rewrite E; auto.
Qed.

Lemma dict_get_set_other (d : list (K * V)) k v k0 :
  k0 <> k -> dict_get eqb (dict_set eqb d k v) k0 = dict_get eqb d k0.
Proof.
  intros N. induction d as [|[k' v'] d IH]; simpl.
  - destruct (eqb k k0) eqn:E; [apply eqb_eq in E; congruence | reflexivity].
  - destruct (eqb k' k) eqn:E; simpl.
    + apply eqb_eq in E. subst k'.
      destruct (eqb k k0) eqn:E0; [apply eqb_eq in E0; congruence | reflexivity].
    + destruct (eqb k' k0); auto.
Qed.

Lemma dict_keys_set_present (d : list (K * V)) k v v0 :
  dict_get eqb d k = Some v0 ->
  dict_keys (dict_set eqb d k v) = dict_keys d.
Proof.
  unfold dict_keys.
  induction d as [|[k' v'] d IH]; simpl; [discriminate|].
  destruct (eqb k' k) eqn:E; simpl; [reflexivity|].
  intros H. rewrite IH; auto.
Qed.

Lemma dict_get_In (d : list (K * V)) k v :
  dict_get eqb d k = Some v -> In (k, v) d.
Proof.
  induction d as [|[k' v'] d IH]; simpl; [discriminate|].
  destruct (eqb k' k) eqn:E.
  - apply eqb_eq in E. subst. intros [= ->]. auto.
  - auto.
Qed.

Lemma dict_get_key_present (d : list (K * V)) k :
  In k (dict_keys d) -> exists v, dict_get eqb d k = Some v.
Proof.
  unfold dict_keys.
  induction d as [|[k' v'] d IH]; simpl; [tauto|].
  intros [E | H].
  - subst k'. replace (eqb k k) with true; eauto.
    symmetry. apply eqb_eq. reflexivity.
  - destruct (eqb k' k); eauto.
Qed.
End DictFacts.

(** ** Shrinking of the domain store *)

Lemma shrinks_to_refl (doms : Domains) : shrinks_to doms doms.
Proof.
  induction doms; constructor; auto.
  repeat split; auto using incl_refl.
Qed.

Lemma shrinks_to_trans (d1 d2 d3 : Domains) :
  shrinks_to d1 d2 -> shrinks_to d2 d3 -> shrinks_to d1 d3.
Proof.
  intros H. revert d3. induction H as [|p p' l l' [K [I L]] H IH]; intros d3 H3.
  - inversion H3. constructor.
  - inversion H3 as [|q q' m m' [K' [I' L']] H' ]; subst.
    constructor.
    + repeat split; [congruence | eapply incl_tran; eauto | lia].
    + apply IH. assumption.
Qed.

Lemma shrinks_to_get (doms doms' : Domains) v ws' :
  shrinks_to doms doms' ->
  dict_get Var_eqb doms' v = Some ws' ->
  exists ws, dict_get Var_eqb doms v = Some ws /\ incl ws' ws /\
             List.length ws' <= List.length ws.
Proof.
  induction 1 as [|[k ws] [k' ws1] l l' [K [I L]] H IH]; simpl in *.
  - discriminate.
  - subst k'. destruct (Var_eqb k v).
    + intros [= <-]. eauto.
    + auto.
Qed.

Lemma filter_length_le {A : Type} (f : A -> bool) (l : list A) :
  List.length (filter f l) <= List.length l.
Proof. induction l; simpl; [lia|]. destruct (f a); simpl; lia. Qed.

Lemma shrinks_to_set (doms : Domains) x dx cd :
  dict_get Var_eqb doms x = Some dx ->
  incl cd dx -> List.length cd <= List.length dx ->
  shrinks_to doms (dict_set Var_eqb doms x cd).
Proof.
  induction doms as [|[k ws] doms IH]; simpl; [discriminate|].
  destruct (Var_eqb k x) eqn:E.
  - intros [= ->] I L. constructor.
    + simpl. repeat split; assumption.
    + apply shrinks_to_refl.
  - intros H I L. constructor.
    + simpl. repeat split; auto using incl_refl.
    + apply IH; assumption.
Qed.

Lemma enforce_node_consistency_shrinks (doms : Domains) :
  shrinks_to doms (enforce_node_consistency doms).
Proof.
  unfold enforce_node_consistency.
  induction doms as [|[v ws] doms IH]; simpl; constructor; auto.
  simpl. repeat split.
  - apply incl_filter.
  - apply filter_length_le.
Qed.

(** ** What [revise] computes *)

Lemma has_value_Ok (i j : nat) (xWord : string) (dy : list string) (b : bool) :
  has_value i j xWord dy = Ok b -> b = supported i j dy xWord.
Proof.
  unfold supported. induction dy as [|yWord dy IH]; simpl.
  - congruence.
  - unfold str_index.
    destruct (String.get i xWord) as [cx|] eqn:Gx; simpl; [|discriminate].
    destruct (String.get j yWord) as [cy|] eqn:Gy; simpl; [|discriminate].
    unfold chars_match at 1. rewrite Gx, Gy.
    destruct (Ascii.eqb cx cy); simpl; [congruence | auto].
Qed.

Lemma get_in_range (k : nat) (w : string) :
  k < String.length w -> exists c, String.get k w = Some c.
Proof.
  revert k. induction w as [|a w IH]; simpl; intros k H; [lia|].
  destruct k; [eauto|]. apply IH. lia.
Qed.

Lemma has_value_total (i j : nat) (xWord : string) (dy : list string) :
  i < String.length xWord ->
  (forall w2, In w2 dy -> j < String.length w2) ->
  has_value i j xWord dy = Ok (supported i j dy xWord).
Proof.
  intros Hi Hj.
  destruct (has_value i j xWord dy) as [b|e] eqn:E.
  - f_equal. eapply has_value_Ok; eauto.
  - exfalso. induction dy as [|yWord dy IH]; simpl in E; [discriminate|].
    unfold str_index in E.
    destruct (get_in_range i xWord Hi) as [cx Gx].
    destruct (get_in_range j yWord (Hj yWord (or_introl eq_refl))) as [cy Gy].
    rewrite Gx, Gy in E. simpl in E.
    destruct (Ascii.eqb cx cy); [discriminate|].
    apply IH; auto. intros; apply Hj; simpl; auto.
Qed.

Lemma revise_loop_Ok (doms : Domains) (y : Var) (i j : nat) (dy : list string)
    (dx acc cd : list string) (rm rm' : bool) :
  domain_of doms y = Ok dy ->
  revise_loop doms y i j dx acc rm = Ok (cd, rm') ->
  cd = acc ++ filter (supported i j dy) dx /\
  rm' = rm && forallb (supported i j dy) dx.
Proof.
  intros Hy. revert acc rm.
  induction dx as [|xWord dx IH]; simpl; intros acc rm H.
  - injection H as <- <-. rewrite app_nil_r, andb_true_r. auto.
  - rewrite Hy in H. simpl in H.
    destruct (has_value i j xWord dy) as [b|e] eqn:E; simpl in H; [|discriminate].
    apply has_value_Ok in E. rewrite <- E.
    destruct b; apply IH in H as [-> ->]; simpl.
    + rewrite <- app_assoc. auto.
    + rewrite andb_false_r. auto.
Qed.

Lemma revise_loop_total (doms : Domains) (y : Var) (i j : nat)
    (dy dx acc : list string) (rm : bool) :
  domain_of doms y = Ok dy ->
  (forall w, In w dx -> i < String.length w) ->
  (forall w2, In w2 dy -> j < String.length w2) ->
  revise_loop doms y i j dx acc rm =
  Ok (acc ++ filter (supported i j dy) dx,
      rm && forallb (supported i j dy) dx).
Proof.
  intros Hy Hi Hj. revert acc rm.
  induction dx as [|xWord dx IH]; simpl; intros acc rm.
  - rewrite app_nil_r, andb_true_r. reflexivity.
  - rewrite Hy. simpl.
    rewrite has_value_total by (auto; apply Hi; simpl; auto). simpl.
    destruct (supported i j dy xWord); rewrite IH by (intros; apply Hi; simpl; auto).
    + rewrite <- app_assoc. reflexivity.
    + simpl. rewrite andb_false_r. reflexivity.
Qed.

(** Whatever [revise_loop] returns was taken from its input. *)
Lemma revise_loop_sub (doms : Domains) (y : Var) (i j : nat)
    (dx acc cd : list string) (rm rm' : bool) :
  revise_loop doms y i j dx acc rm = Ok (cd, rm') ->
  incl cd (acc ++ dx) /\ List.length cd <= List.length acc + List.length dx.
Proof.
  destruct dx as [|xWord dx0] eqn:Edx.
  - simpl. intros [= <- <-]. rewrite app_nil_r. split; [apply incl_refl | lia].
  - rewrite <- Edx. intros H.
    destruct (domain_of doms y) as [dy|e] eqn:Hy.
    + destruct (revise_loop_Ok _ _ _ _ _ _ _ _ _ _ Hy H) as [-> _]. split.
      * apply incl_app; [apply incl_appl, incl_refl|].
        apply incl_appr, incl_filter.
      * rewrite length_app. pose proof (filter_length_le (supported i j dy) dx). lia.
    + subst dx. simpl in H. rewrite Hy in H. discriminate.
Qed.

Lemma revise_shrinks (cw : Crossword) (doms : Domains) (x y : Var) :
  shrinks_to doms (snd (revise cw doms x y)).
Proof.
  unfold revise.
  destruct (overlap_of cw x y) as [[[i j]|]|e]; simpl;
    try apply shrinks_to_refl.
  destruct (domain_of doms x) as [dx|e] eqn:Hx; simpl;
    try apply shrinks_to_refl.
  destruct (revise_loop doms y i j dx [] true) as [[cd rm]|e] eqn:H; simpl;
    try apply shrinks_to_refl.
  apply revise_loop_sub in H as [I L]. simpl in *.
  unfold domain_of, of_option in Hx.
  destruct (dict_get Var_eqb doms x) as [dx0|] eqn:G; [|discriminate].
  injection Hx as ->.
  eapply shrinks_to_set; eauto.
Qed.

(** The result of [revise] on an arc with a defined overlap, when no index
    is out of range. *)
Lemma revise_defined (cw : Crossword) (doms : Domains) (x y : Var)
    (i j : nat) (dx dy : list string) :
  overlap_of cw x y = Ok (Some (i, j)) ->
  domain_of doms x = Ok dx ->
  domain_of doms y = Ok dy ->
  (forall w, In w dx -> i < String.length w) ->
  (forall w2, In w2 dy -> j < String.length w2) ->
  revise cw doms x y =
  (Ok (forallb (supported i j dy) dx),
   dict_set Var_eqb doms x (filter (supported i j dy) dx)).
Proof.
  intros Ho Hx Hy Hi Hj. unfold revise. rewrite Ho, Hx.
  rewrite (revise_loop_total doms y i j dy dx [] true Hy Hi Hj).
  reflexivity.
Qed.

Lemma forallb_filter_id {A : Type} (f : A -> bool) (l : list A) :
  forallb f l = true <-> filter f l = l.
Proof.
  induction l as [|a l IH]; simpl; [tauto|].
  destruct (f a) eqn:E; simpl.
  - rewrite IH. split; [congruence|]. intros [= H]. exact H.
  - split; [discriminate|]. intros H.
    pose proof (filter_length_le f l) as L. rewrite H in L. simpl in L. lia.
Qed.

(** The flag returned by [revise] is [true] exactly when every word of
    [domain(x)] was kept. *)
Lemma revise_flag (cw : Crossword) (doms : Domains) (x y : Var)
    (i j : nat) (dx dy : list string) :
  overlap_of cw x y = Ok (Some (i, j)) ->
  domain_of doms x = Ok dx ->
  domain_of doms y = Ok dy ->
  (forall w, In w dx -> i < String.length w) ->
  (forall w2, In w2 dy -> j < String.length w2) ->
  exists b doms',
    revise cw doms x y = (Ok b, doms') /\
    (b = true <-> domain_of doms' x = Ok dx).
Proof.
  intros Ho Hx Hy Hi Hj.
  rewrite (revise_defined cw doms x y i j dx dy Ho Hx Hy Hi Hj).
  eexists. eexists. split; [reflexivity|].
  unfold domain_of. rewrite (dict_get_set_same Var_eqb Var_eqb_eq). simpl.
  rewrite forallb_filter_id. split; [congruence|]. intros [= H]. exact H.
Qed.

Lemma chars_match_true (i j : nat) (w w2 : string) :
  chars_match i j w w2 = true <->
  exists c, String.get i w = Some c /\ String.get j w2 = Some c.
Proof.
  unfold chars_match.
  destruct (String.get i w) as [c|], (String.get j w2) as [c2|]; split;
    try discriminate; try (intros [c0 [H1 H2]]; discriminate).
  - intros E. apply Ascii.eqb_eq in E. subst. eauto.
  - intros [c0 [[= ->] [= ->]]]. apply Ascii.eqb_refl.
Qed.

(** ** Arc revision keeps exactly the supported words *)

(** C7: on an arc [(x, y)] with overlap [(i, j)], [revise] returns normally
    and leaves in [domain(x)] exactly the words [w] of the prior domain for
    which some [w2] of [domain(y)] has [w[i] = w2[j]], in their prior
    order. The offsets are assumed to lie inside the words of the two
    domains, as they do once node consistency has run on a well-formed
    puzzle. *)
Theorem revise_keeps_exactly_supported (cw : Crossword) (doms : Domains)
    (x y : Var) (i j : nat) (dx dy : list string) :
  overlap_of cw x y = Ok (Some (i, j)) ->
  domain_of doms x = Ok dx ->
  domain_of doms y = Ok dy ->
  (forall w, In w dx -> i < String.length w) ->
  (forall w2, In w2 dy -> j < String.length w2) ->
  exists b dx',
    fst (revise cw doms x y) = Ok b /\
    domain_of (snd (revise cw doms x y)) x = Ok dx' /\
    dx' = filter (supported i j dy) dx /\
    forall w,
      In w dx' <->
      In w dx /\
      exists w2, In w2 dy /\
                 exists c, String.get i w = Some c /\ String.get j w2 = Some c.
Proof.
  intros Ho Hx Hy Hi Hj.
  rewrite (revise_defined cw doms x y i j dx dy Ho Hx Hy Hi Hj). simpl.
  exists (forallb (supported i j dy) dx), (filter (supported i j dy) dx).
  split; [reflexivity|]. split.
  - unfold domain_of. rewrite (dict_get_set_same Var_eqb Var_eqb_eq).
    reflexivity.
  - split; [reflexivity|]. intros w.
    rewrite filter_In. unfold supported. rewrite existsb_exists.
    split; intros [Hin [w2 [H2 M]]]; (split; [exact Hin|]); exists w2;
      (split; [exact H2|]); apply chars_match_true; exact M.
Qed.

Lemma revise_keeps_exactly_supported_witness :
  exists b dx',
    fst (revise ell (enforce_node_consistency (init_domains ell))
                ell_across ell_down) = Ok b /\
    domain_of (snd (revise ell (enforce_node_consistency (init_domains ell))
                           ell_across ell_down)) ell_across = Ok dx' /\
    dx' = filter (supported 0 0 ["CDE"]) ["AB"] /\
    forall w,
      In w dx' <->
      In w ["AB"] /\
      exists w2, In w2 ["CDE"] /\
                 exists c, String.get 0 w = Some c /\ String.get 0 w2 = Some c.
Proof.
  apply (revise_keeps_exactly_supported
           ell (enforce_node_consistency (init_domains ell))
           ell_across ell_down 0 0 ["AB"] ["CDE"]).
  - reflexivity.
  - reflexivity.
  - reflexivity.
  - intros w [<-|[]]. simpl. lia.
  - intros w [<-|[]]. simpl. lia.
Defined.

(** ** Monotone pruning *)

Lemma ac3_loop_shrinks (fuel : nat) (cw : Crossword) (arcs : list Arc)
    (doms : Domains) (r : outcome bool) (doms' : Domains) :
  ac3_loop fuel cw arcs doms = Some (r, doms') -> shrinks_to doms doms'.
Proof.
  revert arcs doms. induction fuel as [|fuel IH]; intros arcs doms;
    destruct arcs as [|[x y] arcs]; simpl;
    try (intros [= <- <-]; apply shrinks_to_refl); try discriminate.
  pose proof (revise_shrinks cw doms x y) as S.
  destruct (revise cw doms x y) as [[[|]|e] d1]; simpl in S.
  - destruct (domain_of d1 x) as [[|w ws]|e].
    + intros [= <- <-]. exact S.
    + intros H. apply IH in H. eapply shrinks_to_trans; eauto.
    + intros [= <- <-]. exact S.
  - intros H. apply IH in H. eapply shrinks_to_trans; eauto.
  - intros [= <- <-]. exact S.
Qed.

(** C9: every operation on the domain store only shrinks it. Node
    consistency and each call of [revise] leave every variable with a subset
    of its previous domain, of no greater size; so do [ac3], which only
    changes the store through [revise], and [solve]. *)
Theorem domains_only_shrink :
  (forall doms, shrinks_to doms (enforce_node_consistency doms)) /\
  (forall cw doms x y, shrinks_to doms (snd (revise cw doms x y))) /\
  (forall fuel cw arcs doms,
      shrinks_to doms (store_after doms (ac3 fuel cw arcs doms))) /\
  (forall fuel cw doms,
      shrinks_to doms (store_after doms (solve fuel cw doms))).
Proof.
  assert (A3 : forall fuel cw arcs doms,
             shrinks_to doms (store_after doms (ac3 fuel cw arcs doms))).
  { intros fuel cw arcs doms. unfold ac3.
    match goal with |- context [ac3_loop ?f ?c ?a ?d] =>
      destruct (ac3_loop f c a d) as [[r d']|] eqn:E end; simpl.
    - eapply ac3_loop_shrinks; eauto.
    - apply shrinks_to_refl. }
  repeat split.
  - apply enforce_node_consistency_shrinks.
  - apply revise_shrinks.
  - exact A3.
  - intros fuel cw doms. unfold solve.
    pose proof (enforce_node_consistency_shrinks doms) as S1.
    pose proof (A3 fuel cw None (enforce_node_consistency doms)) as S2.
    destruct (ac3 fuel cw None (enforce_node_consistency doms))
      as [[[b|e] d2]|]; simpl in *.
    + destruct (backtrack fuel cw d2 []) as [[r a]|]; simpl.
      * eapply shrinks_to_trans; eauto.
      * apply shrinks_to_refl.
    + eapply shrinks_to_trans; eauto.
    + apply shrinks_to_refl.
Qed.

(** ** Fuel

    Fuel only bounds the number of iterations: a run of [ac3] that ends
    with some fuel ends the same way with more. *)

Lemma ac3_loop_more_fuel (fuel : nat) (cw : Crossword) (arcs : list Arc)
    (doms : Domains) (r : outcome bool * Domains) :
  ac3_loop fuel cw arcs doms = Some r ->
  ac3_loop (S fuel) cw arcs doms = Some r.
Proof.
  revert arcs doms. induction fuel as [|fuel IH]; intros arcs doms;
    destruct arcs as [|[x y] arcs]; try (intros H; exact H);
    try discriminate.
  intros H. change (ac3_loop (S (S fuel)) cw ((x, y) :: arcs) doms) with
    (match revise cw doms x y with
     | (Raise e, doms') => Some (Raise e, doms')
     | (Ok false, doms') => ac3_loop (S fuel) cw arcs doms'
     | (Ok true, doms') =>
         match domain_of doms' x with
         | Raise e => Some (Raise e, doms')
         | Ok [] => Some (Ok false, doms')
         | Ok (_ :: _) =>
             ac3_loop (S fuel) cw
                      (arcs ++ map (fun neighbor => (neighbor, x))
                                   (ac3_neighbors cw x y))
                      doms'
         end
     end).
  cbn [ac3_loop] in H.
  destruct (revise cw doms x y) as [[[|]|e] d1]; auto.
  destruct (domain_of d1 x) as [[|w ws]|e]; auto.
Qed.

Lemma ac3_loop_fuel_mono (n m : nat) (cw : Crossword) (arcs : list Arc)
    (doms : Domains) (r : outcome bool * Domains) :
  n <= m ->
  ac3_loop n cw arcs doms = Some r ->
  ac3_loop m cw arcs doms = Some r.
Proof.
  induction 1 as [|m L IH]; intros H; [exact H|].
  apply ac3_loop_more_fuel. apply IH. exact H.
Qed.

(** ** The consistency check *)

Lemma consistent_conflicts_true (cw : Crossword) (a : Assignment)
    (keys : list Arc) :
  incl keys (dict_keys (overlaps cw)) ->
  consistent_conflicts cw a keys = Ok true.
Proof.
  induction keys as [|[x y] keys IH]; simpl; intros I; [reflexivity|].
  assert (IH' : consistent_conflicts cw a keys = Ok true).
  { apply IH. intros k Hk. apply I. simpl. auto. }
  unfold dict_mem.
  destruct (dict_get Var_eqb a x) as [wx|]; simpl; [|exact IH'].
  destruct (dict_get Var_eqb a y) as [wy|]; simpl; [|exact IH'].
  destruct (dict_get_key_present Arc_eqb Arc_eqb_eq (overlaps cw) (x, y))
    as [o Ho].
  { apply I. simpl. auto. }
  unfold overlap_of. rewrite Ho. simpl. exact IH'.
Qed.

(** The loop over the overlaps never returns [False]: the outcome of
    [consistent] is that of its first loop. *)
Lemma consistent_is_consistent_words (cw : Crossword) (a : Assignment) :
  consistent cw a = Ok (consistent_words a []).
Proof.
  unfold consistent. destruct (consistent_words a []); [|reflexivity].
  apply consistent_conflicts_true, incl_refl.
Qed.

Lemma corner_letters_disagree :
  ~ overlaps_agree corner [(corner_across, "AB"); (corner_down, "CD")].
Proof.
  intros H.
  destruct (H corner_across corner_down 0 0 "AB" "CD"
              eq_refl eq_refl eq_refl) as [c [H1 H2]].
  simpl in H1, H2. congruence.
Qed.

(** C2: [consistent] accepts an assignment whose two words disagree at
    the cell the two slots share: on [corner], ["AB"] across and ["CD"] down
    both claim the top-left cell. *)
Theorem consistent_accepts_conflicting_overlap :
  consistent corner [(corner_across, "AB"); (corner_down, "CD")] = Ok true /\
  ~ consistent_spec corner [(corner_across, "AB"); (corner_down, "CD")].
Proof.
  split; [reflexivity|].
  intros [_ [_ H]]. exact (corner_letters_disagree H).
Qed.

(** ** [solve] *)

(** C1: with enough fuel for the two loops, [solve] on [corner] returns the
    assignment ["AB"] across, ["CD"] down, which binds both variables with
    distinct words of the right length but puts two different letters in the
    shared cell. *)
Theorem solve_returns_conflicting_assignment (k : nat) :
  create_and_solve (3 + k) corner =
  Some (Ok (Some [(corner_across, "AB"); (corner_down, "CD")]),
        [(corner_across, ["AB"; "CD"]); (corner_down, ["AB"; "CD"])]) /\
  ~ valid_solution corner [(corner_across, "AB"); (corner_down, "CD")].
Proof.
  split; [reflexivity|].
  intros [_ [_ [_ H]]]. exact (corner_letters_disagree H).
Qed.

(** The same happens in whichever order the sets of variables and words and
    the overlap dictionary are iterated. *)
Example solve_corner_any_order :
  forallb (fun cw =>
             match create_and_solve 3 cw with
             | Some (Ok (Some a), _) => corner_clash a
             | _ => false
             end)
          corner_orders = true.
Proof. reflexivity. Qed.

(** ** The flag returned by [revise], and what [ac3] makes of it *)

(** C4: the flag is inverted. On [corner] every word of the across slot
    has a partner, nothing is removed and [revise] returns [True]; on [ell]
    the only word of the across slot is removed and [revise] returns
    [False]. *)
Theorem revise_flag_is_inverted :
  revise corner (enforce_node_consistency (init_domains corner))
         corner_across corner_down =
  (Ok true, enforce_node_consistency (init_domains corner)) /\
  enforce_node_consistency (init_domains ell) =
  [(ell_across, ["AB"]); (ell_down, ["CDE"])] /\
  revise ell (enforce_node_consistency (init_domains ell))
         ell_across ell_down =
  (Ok false, [(ell_across, []); (ell_down, ["CDE"])]).
Proof. repeat split. Qed.

(** C3: on [ell] the first revision empties the domain of the across slot
    and the second that of the down slot, yet [ac3] runs to the end of its
    queue and returns [True]. [solve] then searches and finds nothing. *)
Theorem ac3_succeeds_with_emptied_domains (k : nat) :
  snd (revise ell (enforce_node_consistency (init_domains ell))
              ell_across ell_down) =
  [(ell_across, []); (ell_down, ["CDE"])] /\
  ac3 (3 + k) ell None (enforce_node_consistency (init_domains ell)) =
  Some (Ok true, [(ell_across, []); (ell_down, [])]) /\
  create_and_solve (3 + k) ell =
  Some (Ok None, [(ell_across, []); (ell_down, [])]).
Proof. split; [reflexivity|]. split; reflexivity. Qed.

Example ac3_ell_any_order :
  forallb (fun cw =>
             match ac3 3 cw None (enforce_node_consistency (init_domains cw))
             with
             | Some (Ok true, doms) => all_empty doms
             | _ => false
             end)
          ell_orders = true.
Proof. reflexivity. Qed.

(** ** Variable selection *)

(** C6: on [bridge], after node consistency and arc consistency, the two
    down slots have one candidate each and the across slot has five. The
    two down slots tie for the fewest candidates, and the variable returned
    is the across slot, which has the most neighbors of all unassigned
    variables but not the fewest candidates. *)
Theorem select_returns_larger_domain (k : nat) :
  let doms := enforce_node_consistency (init_domains bridge) in
  ac3 (13 + k) bridge None doms = Some (Ok true, doms) /\
  unassigned_variables bridge [] =
  [bridge_left; bridge_right; bridge_across] /\
  select_unassigned_variable bridge doms [] = Ok bridge_across /\
  domain_size doms bridge_left = 1 /\
  domain_size doms bridge_right = 1 /\
  domain_size doms bridge_across = 5.
Proof. simpl. split; [reflexivity|]. repeat split. Qed.

Example select_bridge_any_order :
  forallb (fun cw =>
             match select_unassigned_variable
                     cw (enforce_node_consistency (init_domains cw)) [] with
             | Ok v => Var_eqb v bridge_across
             | Raise _ => false
             end)
          bridge_orders = true.
Proof. reflexivity. Qed.

(** ** Stable sorting *)

Section SortedFacts.
Context {A : Type} (le : A -> A -> bool).
Hypothesis le_total : forall x y, le x y = true \/ le y x = true.
Hypothesis le_trans :
  forall x y z, le x y = true -> le y z = true -> le x z = true.

Lemma insert_by_perm (x : A) (l : list A) :
  Permutation (insert_by le x l) (x :: l).
Proof.
  induction l as [|y l IH]; simpl; [reflexivity|].
  destruct (le x y); [reflexivity|].
  rewrite IH. apply perm_swap.
Qed.

Lemma sorted_by_perm (l : list A) : Permutation (sorted_by le l) l.
Proof.
  induction l as [|x l IH]; simpl; [reflexivity|].
  rewrite insert_by_perm. constructor. exact IH.
Qed.

Lemma insert_by_sorted (x : A) (l : list A) :
  StronglySorted (fun a b => le a b = true) l ->
  StronglySorted (fun a b => le a b = true) (insert_by le x l).
Proof.
  induction 1 as [|y l S IH F]; simpl.
  - repeat constructor.
  - destruct (le x y) eqn:E.
    + constructor; [constructor; assumption|].
      constructor; [exact E|].
      eapply Forall_impl; [|exact F]. intros z Hz. eapply le_trans; eauto.
    + constructor; [exact IH|].
      assert (Hyx : le y x = true) by (destruct (le_total x y); congruence).
      eapply Permutation_Forall.
      * symmetry. apply insert_by_perm.
      * constructor; assumption.
Qed.

Lemma sorted_by_sorted (l : list A) :
  StronglySorted (fun a b => le a b = true) (sorted_by le l).
Proof.
  induction l as [|x l IH]; simpl; [constructor|].
  apply insert_by_sorted. exact IH.
Qed.
End SortedFacts.

(** ** Counting eliminated values *)

Section CountsFacts.
Context {K V : Type} (eqb : K -> K -> bool).
Hypothesis eqb_eq : forall a b, eqb a b = true <-> a = b.

Lemma dict_set_set (d : list (K * V)) k v v' :
  dict_set eqb (dict_set eqb d k v) k v' = dict_set eqb d k v'.
Proof.
  induction d as [|[k0 v0] d IH]; simpl.
  - replace (eqb k k) with true; [reflexivity|].
    symmetry. apply eqb_eq. reflexivity.
  - destruct (eqb k0 k) eqn:E; simpl; rewrite E; [reflexivity|].
    rewrite IH. reflexivity.
Qed.

Lemma dict_set_same_value (d : list (K * V)) k v :
  dict_get eqb d k = Some v -> dict_set eqb d k v = d.
Proof.
  induction d as [|[k0 v0] d IH]; simpl; [discriminate|].
  destruct (eqb k0 k) eqn:E.
  - intros [= ->]. reflexivity.
  - intros H. rewrite IH; auto.
Qed.

Lemma dict_get_app_absent (d d' : list (K * V)) k :
  ~ In k (dict_keys d) ->
  dict_get eqb (d ++ d') k = dict_get eqb d' k.
Proof.
  unfold dict_keys.
  induction d as [|[k0 v0] d IH]; simpl; intros N; [reflexivity|].
  destruct (eqb k0 k) eqn:E.
  - apply eqb_eq in E. tauto.
  - apply IH. tauto.
Qed.

Lemma dict_set_app_absent (d d' : list (K * V)) k v :
  ~ In k (dict_keys d) ->
  dict_set eqb (d ++ d') k v = d ++ dict_set eqb d' k v.
Proof.
  unfold dict_keys.
  induction d as [|[k0 v0] d IH]; simpl; intros N; [reflexivity|].
  destruct (eqb k0 k) eqn:E.
  - apply eqb_eq in E. tauto.
  - rewrite IH; tauto.
Qed.
End CountsFacts.

Lemma dict_add_0 (num : Counts) (w : string) : dict_add num w 0 = num.
Proof.
  unfold dict_add. destruct (dict_get String.eqb num w) as [k0|] eqn:G; auto.
  rewrite Nat.add_0_r. apply dict_set_same_value. exact G.
Qed.

Lemma dict_add_add (num : Counts) (w : string) (a b : nat) :
  dict_add (dict_add num w a) w b = dict_add num w (a + b).
Proof.
  unfold dict_add at 2 3.
  destruct (dict_get String.eqb num w) as [k0|] eqn:G.
  - unfold dict_add. rewrite (dict_get_set_same String.eqb String.eqb_eq).
    rewrite (dict_set_set String.eqb String.eqb_eq). f_equal. lia.
  - unfold dict_add. rewrite G. reflexivity.
Qed.

Lemma dict_add_keys (num : Counts) (w : string) (k : nat) :
  dict_keys (dict_add num w k) = dict_keys num.
Proof.
  unfold dict_add. destruct (dict_get String.eqb num w) as [k0|] eqn:G; auto.
  eapply dict_keys_set_present. exact G.
Qed.

Lemma count_words_adds (i j : nat) (word_var : string) (dn : list string)
    (num : Counts) :
  In word_var (dict_keys num) ->
  i < String.length word_var ->
  (forall w2, In w2 dn -> j < String.length w2) ->
  count_words (Some (i, j)) word_var dn num =
  Ok (dict_add num word_var
               (List.length (filter (conflicts (Some (i, j)) word_var) dn))).
Proof.
  intros Hk Hi. revert num Hk.
  induction dn as [|word_n dn IH]; intros num Hk Hj.
  - simpl. rewrite dict_add_0. reflexivity.
  - cbn [count_words filter].
    destruct (get_in_range i word_var Hi) as [cv Gv].
    destruct (get_in_range j word_n (Hj word_n (or_introl eq_refl))) as [cn Gn].
    assert (Hj' : forall w2, In w2 dn -> j < String.length w2)
      by (intros; apply Hj; simpl; auto).
    unfold str_index. rewrite Gv, Gn. cbn [of_option obind].
    unfold conflicts at 1, chars_match. rewrite Gv, Gn.
    destruct (Ascii.eqb cv cn); cbn [negb].
    + apply IH; assumption.
    + destruct (dict_get_key_present String.eqb String.eqb_eq num word_var Hk)
        as [k0 G].
      rewrite G. cbn [of_option obind].
      rewrite IH; [|erewrite dict_keys_set_present; eauto|assumption].
      f_equal. cbn [List.length].
      replace (dict_set String.eqb num word_var (k0 + 1))
        with (dict_add num word_var 1) by (unfold dict_add; rewrite G; reflexivity).
      rewrite dict_add_add. reflexivity.
Qed.

Lemma of_option_Ok {A : Type} (e : exn) (o : option A) (a : A) :
  of_option e o = Ok a -> o = Some a.
Proof. destruct o; simpl; congruence. Qed.

Lemma count_neighbors_adds (cw : Crossword) (doms : Domains) (var : Var)
    (word_var : string) (ns : list Var) (num : Counts) :
  In word_var (dict_keys num) ->
  (forall n, In n ns -> comparable cw doms var word_var n) ->
  count_neighbors cw doms var word_var ns num =
  Ok (dict_add num word_var
               (list_sum (map (eliminated_in cw doms var word_var) ns))).
Proof.
  revert num. induction ns as [|n ns IH]; intros num Hk Hn.
  - simpl. rewrite dict_add_0. reflexivity.
  - destruct (Hn n (or_introl eq_refl)) as (i & j & dn & Ho & Hd & Hi & Hj).
    cbn [count_neighbors map list_sum]. rewrite Ho, Hd. cbn [obind].
    rewrite count_words_adds by assumption. cbn [obind].
    rewrite IH.
    + rewrite dict_add_add. do 3 f_equal.
      unfold eliminated_in.
      apply of_option_Ok in Ho. apply of_option_Ok in Hd.
      rewrite Ho, Hd. reflexivity.
    + rewrite dict_add_keys. exact Hk.
    + intros n' Hn'. apply Hn. simpl. auto.
Qed.

Lemma count_domain_adds (cw : Crossword) (doms : Domains) (var : Var)
    (a : Assignment) (ws : list string) (num : Counts) :
  let ns := unassigned_neighbors cw a var in
  incl ws (dict_keys num) ->
  (forall w n, In w ws -> In n ns -> comparable cw doms var w n) ->
  count_domain cw doms var ns ws num =
  Ok (fold_left (fun num w => dict_add num w (eliminated cw doms a var w))
                ws num).
Proof.
  intros ns. revert num. induction ws as [|w ws IH]; intros num Hk Hc.
  - reflexivity.
  - cbn [count_domain fold_left].
    rewrite count_neighbors_adds.
    + cbn [obind]. apply IH.
      * rewrite dict_add_keys. intros w' Hw'. apply Hk. simpl. auto.
      * intros w' n Hw' Hn. apply Hc; simpl; auto.
    + apply Hk. simpl. auto.
    + intros n Hn. apply Hc; simpl; auto.
Qed.

Lemma zero_counts_NoDup (ws : list string) (acc : Counts) :
  NoDup ws ->
  (forall w, In w ws -> ~ In w (dict_keys acc)) ->
  zero_counts ws acc = acc ++ map (fun w => (w, 0)) ws.
Proof.
  revert acc. induction ws as [|w ws IH]; intros acc N D; simpl.
  - rewrite app_nil_r. reflexivity.
  - inversion N as [|w0 ws0 Nw Nws]; subst.
    rewrite <- (app_nil_r acc) at 1.
    rewrite (dict_set_app_absent String.eqb String.eqb_eq)
      by (apply D; simpl; auto).
    simpl. rewrite IH.
    + rewrite <- app_assoc. reflexivity.
    + exact Nws.
    + intros w' Hw'. unfold dict_keys. rewrite map_app, in_app_iff. simpl.
      intros [H | [H | []]].
      * apply (D w'); simpl; auto.
      * subst. tauto.
Qed.

Lemma fold_dict_add_NoDup (E : string -> nat) (ws : list string)
    (pre : Counts) :
  NoDup ws ->
  (forall w, In w ws -> ~ In w (dict_keys pre)) ->
  fold_left (fun num w => dict_add num w (E w)) ws
            (pre ++ map (fun w => (w, 0)) ws) =
  pre ++ map (fun w => (w, E w)) ws.
Proof.
  revert pre. induction ws as [|w ws IH]; intros pre N D; simpl.
  - reflexivity.
  - inversion N as [|w0 ws0 Nw Nws]; subst.
    assert (Dw : ~ In w (dict_keys pre)) by (apply D; simpl; auto).
    unfold dict_add at 2.
    rewrite (dict_get_app_absent String.eqb String.eqb_eq) by exact Dw.
    simpl. rewrite String.eqb_refl.
    rewrite (dict_set_app_absent String.eqb String.eqb_eq) by exact Dw.
    simpl. rewrite String.eqb_refl.
    change (pre ++ (w, E w) :: map (fun w0 => (w0, 0)) ws)
      with (pre ++ [(w, E w)] ++ map (fun w0 => (w0, 0)) ws).
    rewrite app_assoc. rewrite IH.
    + rewrite <- app_assoc. reflexivity.
    + exact Nws.
    + intros w' Hw'. unfold dict_keys. rewrite map_app, in_app_iff. simpl.
      intros [H | [H | []]].
      * apply (D w'); simpl; auto.
      * subst. tauto.
Qed.

Lemma by_value_asc_total {A : Type} (p q : A * nat) :
  by_value_asc p q = true \/ by_value_asc q p = true.
Proof. unfold by_value_asc. rewrite !Nat.leb_le. lia. Qed.

Lemma by_value_asc_trans {A : Type} (p q r : A * nat) :
  by_value_asc p q = true -> by_value_asc q r = true ->
  by_value_asc p r = true.
Proof. unfold by_value_asc. rewrite !Nat.leb_le. lia. Qed.

Lemma StronglySorted_map_fst (E : string -> nat) (l : list (string * nat)) :
  (forall p, In p l -> snd p = E (fst p)) ->
  StronglySorted (fun p q => by_value_asc p q = true) l ->
  StronglySorted (fun w1 w2 => E w1 <= E w2) (map fst l).
Proof.
  intros HE S. induction S as [|p l S IH F]; simpl; constructor.
  - apply IH. intros q Hq. apply HE. simpl. auto.
  - rewrite Forall_forall in *. intros w Hw.
    apply in_map_iff in Hw as [q [<- Hq]].
    specialize (F q Hq). unfold by_value_asc in F. apply Nat.leb_le in F.
    rewrite <- (HE p), <- (HE q); simpl; auto.
Qed.

(** ** Least-constraining-value ordering *)

(** The result is sorted by the counts taken over the list of neighbors
    that the function goes through. *)
Lemma order_domain_values_sorted_by_counts (cw : Crossword)
    (doms : Domains) (var : Var) (a : Assignment) (dv : list string) :
  domain_of doms var = Ok dv ->
  NoDup dv ->
  (forall w n, In w dv -> In n (unassigned_neighbors cw a var) ->
               comparable cw doms var w n) ->
  exists values,
    order_domain_values cw doms var a = Ok values /\
    Permutation values dv /\
    StronglySorted
      (fun w1 w2 => eliminated cw doms a var w1 <= eliminated cw doms a var w2)
      values.
Proof.
  intros Hd N Hc. unfold order_domain_values. rewrite Hd. cbn [obind].
  rewrite (zero_counts_NoDup dv [] N) by (intros w _ []).
  rewrite (count_domain_adds cw doms var a dv).
  - cbn [obind].
    rewrite (fold_dict_add_NoDup (eliminated cw doms a var) dv [] N)
      by (intros w _ []).
    cbn [app]. eexists. split; [reflexivity|]. split.
    + rewrite (sorted_by_perm by_value_asc). rewrite map_map. simpl.
      rewrite map_id. reflexivity.
    + apply StronglySorted_map_fst.
      * intros p Hp.
        apply (Permutation_in _ (sorted_by_perm by_value_asc _)) in Hp.
        apply in_map_iff in Hp as [w [<- _]]. reflexivity.
      * apply sorted_by_sorted.
        -- apply by_value_asc_total.
        -- apply by_value_asc_trans.
  - cbn [app]. unfold dict_keys. rewrite map_map. simpl. rewrite map_id.
    apply incl_refl.
  - exact Hc.
Qed.

(** The list that the function goes through holds the unassigned neighbors
    of [var] and nothing else. *)

Lemma dict_mem_binds (a : Assignment) (n : Var) :
  dict_mem Var_eqb a n = binds a n.
Proof.
  unfold dict_mem, binds. induction a as [|[k w] a IH]; simpl; [reflexivity|].
  destruct (Var_eqb k n); simpl; [reflexivity | exact IH].
Qed.

Lemma list_sum_filter {A : Type} (p : A -> bool) (f : A -> nat) (l : list A) :
  list_sum (map f (filter p l)) =
  list_sum (map (fun x => if p x then f x else 0) l).
Proof.
  induction l as [|x l IH]; simpl; [reflexivity|].
  destruct (p x); simpl; rewrite IH; reflexivity.
Qed.

Lemma list_sum_map_ext_in {A : Type} (f g : A -> nat) (l : list A) :
  (forall x, In x l -> f x = g x) ->
  list_sum (map f l) = list_sum (map g l).
Proof. intros H. f_equal. apply map_ext_in. exact H. Qed.

Lemma unassigned_neighbors_In (cw : Crossword) (a : Assignment) (var n : Var) :
  crossing_mutual cw var ->
  In n (unassigned_neighbors cw a var) <->
  In n (variables cw) /\ unassigned_neighbor_of cw a var n = true.
Proof.
  intros M. unfold unassigned_neighbors, neighbors, unassigned_neighbor_of.
  rewrite !filter_In, dict_mem_binds. split.
  - intros [[Hn H1] H2]. split; [exact Hn|].
    rewrite <- (M n Hn). unfold crosses.
    rewrite H2, andb_true_r. exact H1.
  - intros [Hn H]. apply andb_true_iff in H as [H1 H2].
    rewrite <- (M n Hn) in H1. unfold crosses in H1. auto.
Qed.

Lemma eliminated_values_ruled_out (cw : Crossword) (doms : Domains)
    (a : Assignment) (var : Var) (w : string) :
  crossing_mutual cw var ->
  eliminated cw doms a var w = values_ruled_out cw doms a var w.
Proof.
  intros M. unfold eliminated, values_ruled_out, unassigned_neighbors, neighbors.
  rewrite !list_sum_filter. apply list_sum_map_ext_in. intros n Hn.
  rewrite dict_mem_binds. unfold unassigned_neighbor_of.
  rewrite <- (M n Hn). unfold crosses.
  destruct (negb (binds a n));
    destruct (negb (Var_eqb n var) &&
              match dict_get Arc_eqb (overlaps cw) (n, var) with
              | Some (Some _) => true
              | _ => false
              end); reflexivity.
Qed.

Lemma StronglySorted_weaken {A : Type} (R R' : A -> A -> Prop) (l : list A) :
  (forall x y, R x y -> R' x y) ->
  StronglySorted R l -> StronglySorted R' l.
Proof.
  intros H. induction 1 as [|x l S IH F]; constructor; auto.
  eapply Forall_impl; [|exact F]. intros y. apply H.
Qed.

(** C8: [order_domain_values] returns the words of [var]'s domain, each
    once, in ascending order of the number of values they rule out: the
    words they conflict with, at the shared offsets, in the current domains
    of the variables that cross [var] and are not bound by the assignment.
    Bound neighbors and variables that do not cross [var] count for
    nothing. The domain is a set (no repeated word), crossing is mutual, and
    the offsets of the overlaps lie inside the words. *)
Theorem order_domain_values_least_constraining (cw : Crossword)
    (doms : Domains) (var : Var) (a : Assignment) (dv : list string) :
  domain_of doms var = Ok dv ->
  NoDup dv ->
  crossing_mutual cw var ->
  offsets_in_range cw doms a var dv ->
  exists values,
    order_domain_values cw doms var a = Ok values /\
    Permutation values dv /\
    StronglySorted
      (fun w1 w2 =>
         values_ruled_out cw doms a var w1 <= values_ruled_out cw doms a var w2)
      values.
Proof.
  intros Hd N M R.
  destruct (order_domain_values_sorted_by_counts cw doms var a dv Hd N)
    as (values & E & P & S).
  - intros w n Hw Hn.
    apply (unassigned_neighbors_In cw a var n M) in Hn as [Hn U].
    assert (C : crosses cw var n = true).
    { unfold unassigned_neighbor_of in U.
      apply andb_true_iff in U as [U _]. apply andb_true_iff in U as [_ U].
      exact U. }
    unfold crosses in C.
    destruct (dict_get Arc_eqb (overlaps cw) (var, n)) as [[[i j]|]|] eqn:G;
      try discriminate.
    destruct (R n i j Hn U G) as (dn & Hdn & Hi & Hj).
    exists i, j, dn. unfold overlap_of, domain_of. rewrite G, Hdn. auto.
  - exists values. split; [exact E|]. split; [exact P|].
    eapply StronglySorted_weaken; [|exact S].
    intros w1 w2. simpl.
    rewrite !(eliminated_values_ruled_out cw doms a var _ M). auto.
Qed.

(** On [trestle] with the left slot bound, only the right slot counts:
    ["ABC"] ends in [C], which two of its three words do not start with;
    ["CBA"] ends in [A], which one does not start with. *)
Lemma order_domain_values_least_constraining_witness :
  exists values,
    order_domain_values trestle
      (enforce_node_consistency (init_domains trestle))
      bridge_across [(bridge_left, "AB")] = Ok values /\
    Permutation values ["ABC"; "CBA"] /\
    StronglySorted
      (fun w1 w2 =>
         values_ruled_out trestle
           (enforce_node_consistency (init_domains trestle))
           [(bridge_left, "AB")] bridge_across w1 <=
         values_ruled_out trestle
           (enforce_node_consistency (init_domains trestle))
           [(bridge_left, "AB")] bridge_across w2)
      values.
Proof.
  apply (order_domain_values_least_constraining
           trestle (enforce_node_consistency (init_domains trestle))
           bridge_across [(bridge_left, "AB")] ["ABC"; "CBA"]).
  - reflexivity.
  - repeat (constructor; [simpl; intuition discriminate|]). constructor.
  - intros n [<-|[<-|[<-|[]]]]; reflexivity.
  - intros n i j [<-|[<-|[<-|[]]]] U G; try discriminate U.
    injection G as <- <-.
    exists ["AB"; "AD"; "CE"]. split; [reflexivity|]. split.
    + intros w [<-|[<-|[]]]; simpl; lia.
    + intros w2 [<-|[<-|[<-|[]]]]; simpl; lia.
Defined.

(** The order returned on [trestle] is the one by the unassigned neighbor
    alone: counting no neighbor, or counting the bound one too, would leave
    the two words tied. *)
Example order_domain_values_trestle :
  order_domain_values trestle
    (enforce_node_consistency (init_domains trestle))
    bridge_across [(bridge_left, "AB")] = Ok ["CBA"; "ABC"] /\
  map (values_ruled_out trestle
         (enforce_node_consistency (init_domains trestle))
         [(bridge_left, "AB")] bridge_across)
      ["CBA"; "ABC"] = [1; 2] /\
  map (values_ruled_out trestle
         (enforce_node_consistency (init_domains trestle))
         [] bridge_across)
      ["CBA"; "ABC"] = [3; 3].
Proof. repeat split. Qed.

(** ["AB"] rules out three words of the down slot, the others one each. *)
Example order_domain_values_quartet :
  order_domain_values quartet (enforce_node_consistency (init_domains quartet))
                      corner_across [] = Ok ["CD"; "CB"; "CE"; "AB"] /\
  map (values_ruled_out quartet
         (enforce_node_consistency (init_domains quartet)) [] corner_across)
      ["CD"; "CB"; "CE"; "AB"] = [1; 1; 1; 3].
Proof. split; reflexivity. Qed.

(** ** AC-3 on a cycle of slots *)

Lemma dict_get_Permutation {K V : Type} (eqb : K -> K -> bool)
    (eqb_eq : forall a b, eqb a b = true <-> a = b)
    (d d' : list (K * V)) (k : K) :
  Permutation d d' -> NoDup (dict_keys d) ->
  dict_get eqb d k = dict_get eqb d' k.
Proof.
  unfold dict_keys.
  induction 1 as [|[k0 v0] d d' P IH|[k0 v0] [k1 v1] d|d d' d'' P IH P' IH'];
    intros N; simpl in *.
  - reflexivity.
  - inversion N; subst. destruct (eqb k0 k); auto.
  - inversion N as [|? ? N1 N2]; subst.
    destruct (eqb k0 k) eqn:E0, (eqb k1 k) eqn:E1; try reflexivity.
    apply eqb_eq in E0, E1. subst. simpl in N1. tauto.
  - rewrite IH by exact N. apply IH'.
    eapply Permutation_NoDup; [|exact N]. apply Permutation_map. exact P.
Qed.

Lemma dict_get_constant (c : list string) (vs : list Var) (v : Var) :
  In v vs -> dict_get Var_eqb (map (fun var => (var, c)) vs) v = Some c.
Proof.
  induction vs as [|v0 vs IH]; simpl; [tauto|].
  intros [-> | H].
  - rewrite Var_eqb_refl. reflexivity.
  - destruct (Var_eqb v0 v); auto.
Qed.

Section RingLoop.
Variables (vs : list Var) (ov : list (Arc * Overlap)).
Hypothesis Hvs : Permutation vs (variables ring).
Hypothesis Hov : Permutation ov (overlaps ring).

Lemma ring_overlap_of (a : Arc) :
dict_get Arc_eqb ov a = dict_get Arc_eqb (overlaps ring) a.
Proof.
symmetry. apply (dict_get_Permutation Arc_eqb Arc_eqb_eq).
- symmetry. exact Hov.
- unfold dict_keys. simpl.
  repeat (constructor; [simpl; intuition discriminate|]). constructor.
Qed.

Lemma ring_keys (a : Arc) :
In a (dict_keys ov) <-> In a (dict_keys (overlaps ring)).
Proof.
unfold dict_keys. split; apply Permutation_in, Permutation_map;
  [exact Hov | symmetry; exact Hov].
Qed.

Lemma ring_domains :
enforce_node_consistency (init_domains (ring_in_order vs ov)) =
map (fun var => (var, ["AAA"])) vs.
Proof.
unfold enforce_node_consistency, init_domains. simpl. rewrite map_map.
apply map_ext_in. intros v Hv.
apply (Permutation_in _ Hvs) in Hv. simpl in Hv.
destruct Hv as [<-|[<-|[<-|[<-|[]]]]]; reflexivity.
Qed.

Lemma ring_domain_of (v : Var) :
In v (variables ring) ->
domain_of (map (fun var => (var, ["AAA"])) vs) v = Ok ["AAA"].
Proof.
intros Hv. unfold domain_of. rewrite dict_get_constant; [reflexivity|].
apply (Permutation_in _ (Permutation_sym Hvs)). exact Hv.
Qed.

(** On the stable domains, [revise] returns [True] on a crossing and
  [False] on a pair of parallel slots, and changes nothing. *)
Lemma ring_revise (x y : Var) :
In (x, y) (dict_keys (overlaps ring)) ->
revise (ring_in_order vs ov) (map (fun var => (var, ["AAA"])) vs) x y =
(Ok (ring_crossing (x, y)), map (fun var => (var, ["AAA"])) vs).
Proof.
intros Hk.
assert (Hx : In x (variables ring) /\ In y (variables ring)).
{ simpl in Hk. simpl.
  repeat (destruct Hk as [[= <- <-]|Hk]; [tauto|]). destruct Hk. }
destruct Hx as [Hx Hy].
unfold revise, overlap_of. cbn [overlaps ring_in_order].
rewrite ring_overlap_of. unfold ring_crossing.
destruct (dict_get Arc_eqb (overlaps ring) (x, y)) as [[[i j]|]|] eqn:G;
  cbn [of_option].
- rewrite (ring_domain_of x Hx).
  assert (R : revise_loop (map (fun var => (var, ["AAA"])) vs) y i j
                          ["AAA"] [] true = Ok (["AAA"], true)).
  { cbn [revise_loop]. rewrite (ring_domain_of y Hy). cbn [obind].
    apply (dict_get_In Arc_eqb Arc_eqb_eq) in G. simpl in G.
    repeat (destruct G as [G|G]; [try discriminate G; injection G as <- <- <- <-; reflexivity|]).
    destruct G. }
  rewrite R. f_equal.
  apply (dict_set_same_value Var_eqb).
  generalize (ring_domain_of x Hx). unfold domain_of. apply of_option_Ok.
- reflexivity.
- exfalso.
  destruct (dict_get_key_present Arc_eqb Arc_eqb_eq (overlaps ring) (x, y) Hk)
    as [o Ho].
  congruence.
Qed.

Lemma ring_ac3_neighbors (x y n : Var) :
In n (ac3_neighbors (ring_in_order vs ov) x y) <->
In (x, n) (dict_keys (overlaps ring)) /\ n <> y.
Proof.
unfold ac3_neighbors. cbn [overlaps ring_in_order].
rewrite in_map_iff. split.
- intros [[x' n'] [<- H]]. apply filter_In in H as [H1 H2]. simpl in *.
  apply andb_true_iff in H2 as [E1 E2]. apply Var_eqb_eq in E1. subst x'.
  split; [apply ring_keys; exact H1|].
  intros ->. rewrite Var_eqb_refl in E2. discriminate.
- intros [H N]. exists (x, n). split; [reflexivity|].
  apply filter_In. split; [apply ring_keys; exact H|]. simpl.
  rewrite Var_eqb_refl. simpl.
  destruct (Var_eqb n y) eqn:E; [apply Var_eqb_eq in E; tauto | reflexivity].
Qed.

(** Every crossing [(x, y)] has a second crossing [(x, z)] with [z <> y]:
  each slot of the ring crosses two others. *)
Lemma ring_second_crossing (x y : Var) :
In (x, y) (dict_keys (overlaps ring)) ->
ring_crossing (x, y) = true ->
exists z, In (x, z) (dict_keys (overlaps ring)) /\ z <> y /\
          ring_crossing (z, x) = true.
Proof.
simpl. intros Hk Hc.
repeat (destruct Hk as [[= <- <-]|Hk];
        [try discriminate Hc;
         first [ exists ring_top; repeat split; [simpl; tauto | discriminate]
               | exists ring_bottom; repeat split; [simpl; tauto | discriminate]
               | exists ring_left; repeat split; [simpl; tauto | discriminate]
               | exists ring_right; repeat split; [simpl; tauto | discriminate] ]|]).
destruct Hk.
Qed.

Lemma ring_keys_symmetric (x n : Var) :
In (x, n) (dict_keys (overlaps ring)) ->
In (n, x) (dict_keys (overlaps ring)).
Proof.
simpl. intros Hk.
repeat (destruct Hk as [[= <- <-]|Hk]; [tauto|]). destruct Hk.
Qed.

(** A queue of arcs of the ring that holds a crossing is never exhausted. *)
Lemma ring_loop_runs_out (fuel : nat) (arcs : list Arc) :
Forall (fun a => In a (dict_keys (overlaps ring))) arcs ->
Exists (fun a => ring_crossing a = true) arcs ->
ac3_loop fuel (ring_in_order vs ov) arcs
         (map (fun var => (var, ["AAA"])) vs) = None.
Proof.
revert arcs. induction fuel as [|fuel IH]; intros arcs HF HE.
- destruct arcs as [|[x y] arcs]; [inversion HE | reflexivity].
- destruct arcs as [|[x y] arcs]; [inversion HE|].
  inversion HF as [|a l Hk HF']; subst.
  cbn [ac3_loop]. rewrite (ring_revise x y Hk).
  destruct (ring_crossing (x, y)) eqn:C.
  + assert (Hx : In x (variables ring)).
    { simpl in Hk. simpl.
      repeat (destruct Hk as [[= <- <-]|Hk]; [tauto|]). destruct Hk. }
    rewrite (ring_domain_of x Hx). apply IH.
    * apply Forall_app. split; [exact HF'|].
      apply Forall_forall. intros a Ha.
      apply in_map_iff in Ha as [n [<- Hn]].
      apply ring_ac3_neighbors in Hn as [Hn _].
      apply ring_keys_symmetric. exact Hn.
    * apply Exists_app. right.
      destruct (ring_second_crossing x y Hk C) as [z [Hz [Nz Cz]]].
      apply Exists_exists. exists (z, x). split; [|exact Cz].
      apply in_map_iff. exists z. split; [reflexivity|].
      apply ring_ac3_neighbors. auto.
  + apply IH; [exact HF'|].
    inversion HE as [a l H|a l H]; subst; [congruence | exact H].
Qed.
End RingLoop.

(** C5: [ac3] does not terminate on [ring]. Whatever the order in which
    the set of variables and the overlap dictionary are iterated, and
    whatever the fuel, the loop is still running when the fuel is spent: no
    domain ever changes, and every revision of a crossing, which removes
    nothing, puts another crossing back on the queue. *)
Theorem ac3_never_terminates_on_ring (vs : list Var)
    (ov : list (Arc * Overlap)) (fuel : nat) :
  Permutation vs (variables ring) ->
  Permutation ov (overlaps ring) ->
  ac3 fuel (ring_in_order vs ov) None
      (enforce_node_consistency (init_domains (ring_in_order vs ov))) = None.
Proof.
  intros Hvs Hov. rewrite (ring_domains vs ov Hvs). unfold ac3.
  cbn [overlaps ring_in_order].
  apply ring_loop_runs_out; try assumption.
  - apply Forall_forall. intros a Ha. apply (ring_keys ov Hov). exact Ha.
  - apply Exists_exists. exists (ring_top, ring_left). split; [|reflexivity].
    apply (ring_keys ov Hov). simpl. tauto.
Qed.

Lemma ac3_never_terminates_on_ring_witness :
  ac3 100 ring None (enforce_node_consistency (init_domains ring)) = None.
Proof.
  apply (ac3_never_terminates_on_ring (variables ring) (overlaps ring) 100).
  - apply Permutation_refl.
  - apply Permutation_refl.
Defined.

(** ** An empty list of arcs *)







(** With no arc supplied the two domains of [ell] are pruned all the same. *)
Example ac3_empty_arcs_prunes :
  ac3 5 ell (Some []) (enforce_node_consistency (init_domains ell)) =
  Some (Ok true, [(ell_across, []); (ell_down, [])]).
Proof. reflexivity. Qed.

(** * Further properties of the solver *)

(** ** Node consistency *)

Lemma enforce_node_consistency_node_consistent (doms : Domains) :
  node_consistent (enforce_node_consistency doms).
Proof.
  unfold node_consistent, enforce_node_consistency.
  induction doms as [|[v ws] doms IH]; simpl; constructor; auto.
  simpl. apply Forall_forall. intros w Hw.
  apply filter_In in Hw as [_ Hw]. apply Nat.eqb_eq. exact Hw.
Qed.

(** X1: after [enforce_node_consistency] every word left in a domain has
    the length of the domain's variable. *)
Theorem enforce_node_consistency_lengths (doms : Domains) :
  node_consistent (enforce_node_consistency doms).
Proof. apply enforce_node_consistency_node_consistent. Qed.

(** X2: [enforce_node_consistency] keeps, for each variable, exactly the
    words of its domain that have the variable's length, in their order; a
    variable without a domain still has none. *)
Theorem enforce_node_consistency_lookup (doms : Domains) (v : Var) :
  dict_get Var_eqb (enforce_node_consistency doms) v =
  option_map (filter (fun w => String.length w =? v_length v))
             (dict_get Var_eqb doms v).
Proof.
  unfold enforce_node_consistency.
  induction doms as [|[k ws] doms IH]; simpl; [reflexivity|].
  destruct (Var_eqb k v) eqn:E; [|exact IH].
  apply Var_eqb_eq in E. subst k. reflexivity.
Qed.

Lemma filter_filter_same {A : Type} (f : A -> bool) (l : list A) :
  filter f (filter f l) = filter f l.
Proof.
  induction l as [|a l IH]; simpl; [reflexivity|].
  destruct (f a) eqn:E; simpl; [rewrite E|]; congruence.
Qed.

(** X3: running [enforce_node_consistency] a second time changes
    nothing. *)
Theorem enforce_node_consistency_idempotent (doms : Domains) :
  enforce_node_consistency (enforce_node_consistency doms) =
  enforce_node_consistency doms.
Proof.
  unfold enforce_node_consistency. rewrite map_map.
  apply map_ext. intros [v ws]. rewrite filter_filter_same. reflexivity.
Qed.

(** ** [revise] *)

(** Either [revise] leaves the store as it is, or it replaces the domain of
    [x], which exists, by what its loop kept. *)
Lemma revise_inv (cw : Crossword) (doms : Domains) (x y : Var) :
  snd (revise cw doms x y) = doms \/
  exists dx cd,
    dict_get Var_eqb doms x = Some dx /\
    snd (revise cw doms x y) = dict_set Var_eqb doms x cd /\
    exists b, fst (revise cw doms x y) = Ok b.
Proof.
  unfold revise.
  destruct (overlap_of cw x y) as [[[i j]|]|e]; simpl; auto.
  destruct (domain_of doms x) as [dx|e] eqn:Hx; simpl; auto.
  destruct (revise_loop doms y i j dx [] true) as [[cd rm]|e]; simpl; auto.
  right. exists dx, cd. apply of_option_Ok in Hx. eauto.
Qed.

(** X4: [revise(x, y)] changes no domain but that of [x], and adds or
    removes no key of the store. *)
Theorem revise_touches_only_x (cw : Crossword) (doms : Domains) (x y v : Var) :
  v <> x ->
  dict_get Var_eqb (snd (revise cw doms x y)) v = dict_get Var_eqb doms v /\
  dict_keys (snd (revise cw doms x y)) = dict_keys doms.
Proof.
  intros N.
  destruct (revise_inv cw doms x y) as [-> | (dx & cd & Hx & -> & _)]; auto.
  split.
  - apply (dict_get_set_other Var_eqb Var_eqb_eq). exact N.
  - eapply dict_keys_set_present. exact Hx.
Qed.

Lemma revise_touches_only_x_witness :
  dict_get Var_eqb
    (snd (revise ell (enforce_node_consistency (init_domains ell))
                 ell_across ell_down)) ell_down =
  dict_get Var_eqb (enforce_node_consistency (init_domains ell)) ell_down /\
  dict_keys (snd (revise ell (enforce_node_consistency (init_domains ell))
                         ell_across ell_down)) =
  dict_keys (enforce_node_consistency (init_domains ell)).
Proof.
  apply (revise_touches_only_x
           ell (enforce_node_consistency (init_domains ell))
           ell_across ell_down ell_down).
  discriminate.
Defined.

(** X5: [revise] assigns the new domain only at its end: when it raises
    (a pair that is no key of [overlaps], a variable without a domain, an
    offset outside a word) the store is left as it was. *)
Theorem revise_raise_keeps_store (cw : Crossword) (doms : Domains)
    (x y : Var) (e : exn) :
  fst (revise cw doms x y) = Raise e ->
  snd (revise cw doms x y) = doms.
Proof.
  intros H.
  destruct (revise_inv cw doms x y) as [E | (dx & cd & _ & _ & b & Hb)]; auto.
  congruence.
Qed.

(** The words of [corner] are too short for offset 5. *)
Lemma revise_raise_keeps_store_witness :
  snd (revise (mkCrossword (variables corner) (words corner)
                           [((corner_across, corner_down), Some (5, 0))])
              (init_domains corner) corner_across corner_down) =
  init_domains corner.
Proof.
  apply (revise_raise_keeps_store _ _ _ _ IndexError). reflexivity.
Defined.

(** X6: the flag returned by [revise] on an arc with a defined overlap is
    [True] exactly when the domain of [x] is left as it was, that is when no
    word was removed. *)
Theorem revise_true_iff_domain_unchanged (cw : Crossword) (doms : Domains)
    (x y : Var) (i j : nat) (dx dy : list string) :
  overlap_of cw x y = Ok (Some (i, j)) ->
  domain_of doms x = Ok dx ->
  domain_of doms y = Ok dy ->
  (forall w, In w dx -> i < String.length w) ->
  (forall w2, In w2 dy -> j < String.length w2) ->
  exists b,
    fst (revise cw doms x y) = Ok b /\
    (b = true <-> domain_of (snd (revise cw doms x y)) x = Ok dx).
Proof.
  intros Ho Hx Hy Hi Hj.
  rewrite (revise_defined cw doms x y i j dx dy Ho Hx Hy Hi Hj). simpl.
  eexists. split; [reflexivity|].
  unfold domain_of. rewrite (dict_get_set_same Var_eqb Var_eqb_eq). simpl.
  rewrite forallb_filter_id. split; [congruence|]. intros [= H]. exact H.
Qed.

Lemma revise_true_iff_domain_unchanged_witness :
  exists b,
    fst (revise ell (enforce_node_consistency (init_domains ell))
                ell_across ell_down) = Ok b /\
    (b = true <->
     domain_of (snd (revise ell (enforce_node_consistency (init_domains ell))
                            ell_across ell_down)) ell_across = Ok ["AB"]).
Proof.
  apply (revise_true_iff_domain_unchanged
           ell (enforce_node_consistency (init_domains ell))
           ell_across ell_down 0 0 ["AB"] ["CDE"]).
  - reflexivity.
  - reflexivity.
  - reflexivity.
  - intros w [<-|[]]. simpl. lia.
  - intros w [<-|[]]. simpl. lia.
Defined.

(** X7: revising the same arc again removes nothing more: the second
    call returns [True] and leaves the store of the first. *)
Theorem revise_twice (cw : Crossword) (doms : Domains)
    (x y : Var) (i j : nat) (dx dy : list string) :
  x <> y ->
  overlap_of cw x y = Ok (Some (i, j)) ->
  domain_of doms x = Ok dx ->
  domain_of doms y = Ok dy ->
  (forall w, In w dx -> i < String.length w) ->
  (forall w2, In w2 dy -> j < String.length w2) ->
  revise cw (snd (revise cw doms x y)) x y =
  (Ok true, snd (revise cw doms x y)).
Proof.
  intros N Ho Hx Hy Hi Hj.
  rewrite (revise_defined cw doms x y i j dx dy Ho Hx Hy Hi Hj). simpl.
  rewrite (revise_defined cw _ x y i j (filter (supported i j dy) dx) dy Ho).
  - rewrite filter_filter_same, (dict_set_set Var_eqb Var_eqb_eq).
    replace (forallb (supported i j dy) (filter (supported i j dy) dx))
      with true; [reflexivity|].
    symmetry. apply forallb_forall. intros w Hw.
    apply filter_In in Hw as [_ Hw]. exact Hw.
  - unfold domain_of. rewrite (dict_get_set_same Var_eqb Var_eqb_eq).
    reflexivity.
  - unfold domain_of.
    rewrite (dict_get_set_other Var_eqb Var_eqb_eq) by congruence. exact Hy.
  - intros w Hw. apply filter_In in Hw as [Hw _]. auto.
  - exact Hj.
Qed.

Lemma revise_twice_witness :
  revise quartet
         (snd (revise quartet (enforce_node_consistency (init_domains quartet))
                      corner_across corner_down))
         corner_across corner_down =
  (Ok true,
   snd (revise quartet (enforce_node_consistency (init_domains quartet))
               corner_across corner_down)).
Proof.
  apply (revise_twice quartet (enforce_node_consistency (init_domains quartet))
                      corner_across corner_down 0 0
                      ["AB"; "CD"; "CB"; "CE"] ["AB"; "CD"; "CB"; "CE"]).
  - discriminate.
  - reflexivity.
  - reflexivity.
  - reflexivity.
  - intros w [<-|[<-|[<-|[<-|[]]]]]; simpl; lia.
  - intros w [<-|[<-|[<-|[<-|[]]]]]; simpl; lia.
Defined.

(** ** [ac3] *)

Lemma ac3_loop_false_empty (fuel : nat) (cw : Crossword) (arcs : list Arc)
    (doms doms' : Domains) :
  ac3_loop fuel cw arcs doms = Some (Ok false, doms') ->
  exists x, domain_of doms' x = Ok [].
Proof.
  revert arcs doms. induction fuel as [|fuel IH]; intros arcs doms;
    destruct arcs as [|[x y] arcs]; simpl; try discriminate.
  destruct (revise cw doms x y) as [[[|]|e] d1]; try discriminate.
  - destruct (domain_of d1 x) as [[|w ws]|e] eqn:E; try discriminate.
    + intros [= <-]. exists x. exact E.
    + apply IH.
  - apply IH.
Qed.

(** X8: [ac3] returns [False] only with an empty domain in the store: if
    the result is [False], some variable's domain is empty at the end. *)
Theorem ac3_false_has_empty_domain (fuel : nat) (cw : Crossword)
    (arcs : option (list Arc)) (doms doms' : Domains) :
  ac3 fuel cw arcs doms = Some (Ok false, doms') ->
  exists x, domain_of doms' x = Ok [].
Proof. unfold ac3. apply ac3_loop_false_empty. Qed.

(** With no word of length 2 the across slot of [ell] starts empty. *)
Lemma ac3_false_has_empty_domain_witness :
  exists x,
    domain_of [(ell_across, []); (ell_down, ["CDE"])] x = Ok [].
Proof.
  apply (ac3_false_has_empty_domain
           3 (mkCrossword (variables ell) ["CDE"] (overlaps ell)) None
           (enforce_node_consistency
              (init_domains
                 (mkCrossword (variables ell) ["CDE"] (overlaps ell))))).
  reflexivity.
Defined.

Lemma ac3_loop_no_crossing (fuel : nat) (cw : Crossword) (arcs : list Arc)
    (doms : Domains) :
  (forall a, In a arcs -> overlap_of cw (fst a) (snd a) = Ok None) ->
  List.length arcs < fuel ->
  ac3_loop fuel cw arcs doms = Some (Ok true, doms).
Proof.
  revert arcs. induction fuel as [|fuel IH]; intros arcs H L; [lia|].
  destruct arcs as [|[x y] arcs]; [reflexivity|].
  cbn [ac3_loop]. unfold revise.
  pose proof (H (x, y) (or_introl eq_refl)) as Hxy. simpl in Hxy.
  rewrite Hxy. apply IH.
  - intros a Ha. apply H. simpl. auto.
  - simpl in L. lia.
Qed.

Lemma overlap_of_first_entry (ov : list (Arc * Overlap)) (a : Arc) :
  (forall k o, In (k, o) ov -> o = None) ->
  In a (dict_keys ov) ->
  dict_get Arc_eqb ov a = Some None.
Proof.
  intros H Ha.
  destruct (dict_get_key_present Arc_eqb Arc_eqb_eq ov a Ha) as [o Ho].
  rewrite Ho. f_equal.
  apply (H a). apply (dict_get_In Arc_eqb Arc_eqb_eq). exact Ho.
Qed.

(** X9: on a puzzle in which no two slots cross (every overlap is
    [None]), [ac3] called without arcs goes once through the queue, returns
    [True] and leaves every domain as it was. *)
Theorem ac3_without_crossings (fuel : nat) (cw : Crossword) (doms : Domains) :
  (forall k o, In (k, o) (overlaps cw) -> o = None) ->
  List.length (overlaps cw) < fuel ->
  ac3 fuel cw None doms = Some (Ok true, doms).
Proof.
  intros H L. unfold ac3. apply ac3_loop_no_crossing.
  - intros [x y] Ha. unfold overlap_of. simpl.
    rewrite (overlap_of_first_entry _ _ H Ha). reflexivity.
  - unfold dict_keys. rewrite length_map. exact L.
Qed.

Lemma ac3_without_crossings_witness :
  ac3 3 rails None (init_domains rails) = Some (Ok true, init_domains rails).
Proof.
  apply (ac3_without_crossings 3 rails (init_domains rails)).
  - intros k o [[= <- <-]|[[= <- <-]|[]]]; reflexivity.
  - simpl. lia.
Defined.

Lemma shrinks_to_node_consistent (doms doms' : Domains) :
  shrinks_to doms doms' -> node_consistent doms -> node_consistent doms'.
Proof.
  unfold node_consistent.
  induction 1 as [|p p' l l' [K [I L]] H IH]; intros N; constructor;
    inversion N as [|? ? Np Nl]; subst; auto.
  rewrite K. rewrite Forall_forall in *. auto.
Qed.

Lemma solve_store_shrinks (fuel : nat) (cw : Crossword) (doms doms' : Domains)
    (r : outcome (option Assignment)) :
  solve fuel cw doms = Some (r, doms') ->
  exists r0, ac3 fuel cw None (enforce_node_consistency doms) = Some (r0, doms').
Proof.
  unfold solve.
  destruct (ac3 fuel cw None (enforce_node_consistency doms))
    as [[[b|e] d2]|]; try discriminate.
  - destruct (backtrack fuel cw d2 []) as [[r1 a]|]; try discriminate.
    intros [= <- <-]. eauto.
  - intros [= <- <-]. eauto.
Qed.

(** X10: the store that [solve] leaves is node consistent: pruning by
    [ac3] only removes words from the domains that node consistency left,
    so the lengths enforced first still hold. *)
Theorem pruned_store_node_consistent (fuel : nat) (cw : Crossword)
    (doms doms' : Domains) (r : outcome (option Assignment)) :
  solve fuel cw doms = Some (r, doms') ->
  node_consistent doms' /\ shrinks_to (enforce_node_consistency doms) doms'.
Proof.
  intros H. apply solve_store_shrinks in H as [r0 H].
  assert (S : shrinks_to (enforce_node_consistency doms) doms').
  { unfold ac3 in H. eapply ac3_loop_shrinks. exact H. }
  split; [|exact S].
  eapply shrinks_to_node_consistent; [exact S|].
  apply enforce_node_consistency_node_consistent.
Qed.

Lemma pruned_store_node_consistent_witness :
  node_consistent [(ell_across, []); (ell_down, [])] /\
  shrinks_to (enforce_node_consistency (init_domains ell))
             [(ell_across, []); (ell_down, [])].
Proof.
  apply (pruned_store_node_consistent 3 ell (init_domains ell) _ (Ok None)).
  reflexivity.
Defined.

(** ** [consistent] *)

Lemma str_mem_In (w : string) (l : list string) :
  str_mem w l = true <-> In w l.
Proof.
  unfold str_mem. rewrite existsb_exists. split.
  - intros [w' [H E]]. apply String.eqb_eq in E. subst. exact H.
  - intros H. exists w. split; [exact H | apply String.eqb_refl].
Qed.

Lemma consistent_words_spec (items : Assignment) (allWords : list string) :
  consistent_words items allWords = true <->
  (forall v w, In (v, w) items -> String.length w = v_length v) /\
  NoDup (map snd items) /\
  (forall w, In w (map snd items) -> ~ In w allWords).
Proof.
  revert allWords. induction items as [|[v w] items IH]; intros acc; simpl.
  - split; [|reflexivity]. intros _. repeat split; try tauto. constructor.
  - destruct (str_mem w acc) eqn:M; simpl.
    + apply str_mem_In in M. split; [discriminate|].
      intros (_ & _ & D). exfalso. apply (D w); auto.
    + assert (Nw : ~ In w acc).
      { intros H. apply str_mem_In in H. congruence. }
      destruct (v_length v =? String.length w) eqn:L; simpl.
      * apply Nat.eqb_eq in L. rewrite IH. split.
        -- intros (Hl & Nd & D). repeat split.
           ++ intros v' w' [[= <- <-]|H]; auto.
           ++ constructor; [|exact Nd].
              intros H. apply (D w H). apply in_or_app. simpl. auto.
           ++ intros w' [<-|H]; [exact Nw|].
              intros Hacc. apply (D w' H). apply in_or_app. auto.
        -- intros (Hl & Nd & D). inversion Nd as [|? ? Nw' Nd']; subst.
           repeat split.
           ++ intros v' w' H. apply Hl. auto.
           ++ exact Nd'.
           ++ intros w' H Hacc. apply in_app_or in Hacc as [Hacc|[<-|[]]].
              ** apply (D w'); auto.
              ** tauto.
      * apply Nat.eqb_neq in L. split; [discriminate|].
        intros (Hl & _). exfalso. apply L. symmetry. apply Hl. auto.
Qed.

Lemma consistent_Ok_true (cw : Crossword) (a : Assignment) :
  consistent cw a = Ok true <-> words_distinct a /\ lengths_correct a.
Proof.
  rewrite consistent_is_consistent_words.
  unfold words_distinct, lengths_correct.
  split.
  - intros [= H]. apply consistent_words_spec in H as (Hl & Nd & _). auto.
  - intros [Nd Hl]. f_equal. apply consistent_words_spec.
    repeat split; auto.
Qed.

(** X11: [consistent] never raises, and it returns [True] exactly when the
    bound words are pairwise distinct and each has the length of its
    variable; the overlaps of the puzzle play no part in the result. *)
Theorem consistent_checks_distinct_and_lengths (cw : Crossword)
    (a : Assignment) :
  exists b,
    consistent cw a = Ok b /\
    (b = true <-> words_distinct a /\ lengths_correct a).
Proof.
  exists (consistent_words a []). split.
  - apply consistent_is_consistent_words.
  - rewrite <- (consistent_Ok_true cw a), consistent_is_consistent_words.
    split; congruence.
Qed.

(** ** [select_unassigned_variable] *)

Lemma num_remaining_values_Ok (doms : Domains) (vs : list Var)
    (l : list (Var * nat)) :
  num_remaining_values doms vs = Ok l ->
  l = map (fun v => (v, domain_size doms v)) vs.
Proof.
  revert l. induction vs as [|v vs IH]; simpl; intros l.
  - intros [= <-]. reflexivity.
  - unfold domain_of, domain_size.
    destruct (dict_get Var_eqb doms v) as [d|]; simpl; [|discriminate].
    destruct (num_remaining_values doms vs) as [rest|e]; simpl; [|discriminate].
    intros [= <-]. rewrite (IH rest eq_refl). reflexivity.
Qed.

Lemma num_remaining_values_total (doms : Domains) (vs : list Var) :
  (forall v, In v vs -> exists d, dict_get Var_eqb doms v = Some d) ->
  num_remaining_values doms vs =
  Ok (map (fun v => (v, domain_size doms v)) vs).
Proof.
  induction vs as [|v vs IH]; simpl; intros H; [reflexivity|].
  destruct (H v (or_introl eq_refl)) as [d Hd].
  unfold domain_of, domain_size at 1. rewrite Hd. simpl.
  rewrite IH by (intros; apply H; auto). reflexivity.
Qed.

Lemma unassigned_variables_In (cw : Crossword) (a : Assignment) (v : Var) :
  In v (unassigned_variables cw a) <->
  In v (variables cw) /\ dict_mem Var_eqb a v = false.
Proof.
  unfold unassigned_variables. rewrite filter_In.
  destruct (dict_mem Var_eqb a v); simpl; intuition congruence.
Qed.

Lemma sorted_by_head_In {A : Type} (le : A -> A -> bool) (l : list A)
    (p : A) (s : list A) :
  sorted_by le l = p :: s -> In p l.
Proof.
  intros H. apply (Permutation_in _ (sorted_by_perm le l)).
  rewrite H. simpl. auto.
Qed.

Lemma select_unassigned_variable_In (cw : Crossword) (doms : Domains)
    (a : Assignment) (v : Var) :
  select_unassigned_variable cw doms a = Ok v ->
  In v (unassigned_variables cw a).
Proof.
  unfold select_unassigned_variable.
  destruct (num_remaining_values doms (unassigned_variables cw a))
    as [l|e] eqn:R; simpl; [|discriminate].
  apply num_remaining_values_Ok in R.
  assert (Hfst : forall p, In p l -> In (fst p) (unassigned_variables cw a)).
  { subst l. intros p Hp. apply in_map_iff in Hp as [u [<- Hu]]. exact Hu. }
  destruct (sorted_by by_value_asc l) as [|p [|q s]] eqn:S; [discriminate| |].
  - intros [= <-]. apply Hfst. eapply sorted_by_head_In. exact S.
  - destruct (negb (snd p =? snd q)).
    + intros [= <-]. apply Hfst. eapply sorted_by_head_In. exact S.
    + destruct (sorted_by by_value_desc
                  (num_degrees cw (unassigned_variables cw a)))
        as [|d s'] eqn:S'; [discriminate|].
      intros [= <-]. apply sorted_by_head_In in S'.
      unfold num_degrees in S'. apply in_map_iff in S' as [u [<- Hu]].
      exact Hu.
Qed.

(** X12: a variable returned by [select_unassigned_variable] is a variable
    of the puzzle that the assignment does not bind. *)
Theorem select_returns_unassigned (cw : Crossword) (doms : Domains)
    (a : Assignment) (v : Var) :
  select_unassigned_variable cw doms a = Ok v ->
  In v (variables cw) /\ dict_mem Var_eqb a v = false.
Proof.
  intros H. apply unassigned_variables_In.
  eapply select_unassigned_variable_In. exact H.
Qed.

Lemma select_returns_unassigned_witness :
  In bridge_across (variables bridge) /\
  dict_mem Var_eqb ([] : Assignment) bridge_across = false.
Proof.
  apply (select_returns_unassigned
           bridge (enforce_node_consistency (init_domains bridge)) []).
  reflexivity.
Defined.

Lemma sorted_by_nonempty {A : Type} (le : A -> A -> bool) (l : list A) :
  l <> [] -> sorted_by le l <> [].
Proof.
  intros N E. apply N.
  apply Permutation_nil. rewrite <- E. apply sorted_by_perm.
Qed.

Lemma select_total (cw : Crossword) (doms : Domains) (a : Assignment) :
  domains_cover cw doms ->
  unassigned_variables cw a <> [] ->
  exists v, select_unassigned_variable cw doms a = Ok v.
Proof.
  intros C N. unfold select_unassigned_variable.
  rewrite num_remaining_values_total.
  2:{ intros v Hv. apply C. apply unassigned_variables_In in Hv. tauto. }
  simpl.
  destruct (sorted_by by_value_asc
              (map (fun v => (v, domain_size doms v))
                   (unassigned_variables cw a))) as [|p [|q s]] eqn:S.
  - exfalso. revert S. apply sorted_by_nonempty.
    destruct (unassigned_variables cw a); [congruence | discriminate].
  - eauto.
  - destruct (negb (snd p =? snd q)); [eauto|].
    destruct (sorted_by by_value_desc
                (num_degrees cw (unassigned_variables cw a)))
      as [|d s'] eqn:S'; [|eauto].
    exfalso. revert S'. apply sorted_by_nonempty. unfold num_degrees.
    destruct (unassigned_variables cw a); [congruence | discriminate].
Qed.

(** X13: when every variable has a domain, [select_unassigned_variable]
    raises [IndexError] if the assignment binds every variable of the
    puzzle, and returns a variable otherwise. *)
Theorem select_raises_iff_all_bound (cw : Crossword) (doms : Domains)
    (a : Assignment) :
  domains_cover cw doms ->
  match unassigned_variables cw a with
  | [] => select_unassigned_variable cw doms a = Raise IndexError
  | _ :: _ => exists v, select_unassigned_variable cw doms a = Ok v
  end.
Proof.
  intros C. destruct (unassigned_variables cw a) as [|u us] eqn:U.
  - unfold select_unassigned_variable. rewrite U. reflexivity.
  - apply select_total; [exact C | congruence].
Qed.

Lemma select_raises_iff_all_bound_witness :
  select_unassigned_variable
    corner (init_domains corner)
    [(corner_across, "AB"); (corner_down, "")] = Raise IndexError.
Proof.
  apply (select_raises_iff_all_bound
           corner (init_domains corner)
           [(corner_across, "AB"); (corner_down, "")]).
  intros v [<-|[<-|[]]]; eexists; reflexivity.
Defined.

Lemma sorted_head_least {A : Type} (le : A -> A -> bool)
    (le_total : forall x y, le x y = true \/ le y x = true)
    (le_trans : forall x y z, le x y = true -> le y z = true -> le x z = true)
    (l : list A) (p : A) (s : list A) :
  sorted_by le l = p :: s -> forall q, In q s -> le p q = true.
Proof.
  intros E q Hq.
  pose proof (sorted_by_sorted le le_total le_trans l) as S.
  rewrite E in S. inversion S as [|? ? _ F]; subst.
  rewrite Forall_forall in F. auto.
Qed.

(** X14: if one unassigned variable has strictly fewer remaining values
    than every other unassigned variable, it is the one returned. *)
Theorem select_unique_minimum (cw : Crossword) (doms : Domains)
    (a : Assignment) (u : Var) :
  NoDup (variables cw) ->
  domains_cover cw doms ->
  In u (variables cw) ->
  dict_mem Var_eqb a u = false ->
  (forall u', In u' (variables cw) -> dict_mem Var_eqb a u' = false ->
              u' <> u -> domain_size doms u < domain_size doms u') ->
  select_unassigned_variable cw doms a = Ok u.
Proof.
  intros Nd C Hu Hm Hmin.
  assert (Uu : In u (unassigned_variables cw a))
    by (apply unassigned_variables_In; auto).
  assert (Umin : forall u', In u' (unassigned_variables cw a) -> u' <> u ->
                            domain_size doms u < domain_size doms u').
  { intros u' H. apply unassigned_variables_In in H as [H1 H2]. auto. }
  assert (NdU : NoDup (unassigned_variables cw a))
    by (apply NoDup_filter; exact Nd).
  unfold select_unassigned_variable.
  rewrite num_remaining_values_total.
  2:{ intros v Hv. apply C. apply unassigned_variables_In in Hv. tauto. }
  simpl.
  set (l := map (fun v => (v, domain_size doms v)) (unassigned_variables cw a)).
  assert (Hl : forall p, In p l ->
                 In (fst p) (unassigned_variables cw a) /\
                 snd p = domain_size doms (fst p)).
  { intros p Hp. apply in_map_iff in Hp as [v [<- Hv]]. auto. }
  assert (Ndl : NoDup l).
  { apply (NoDup_map_inv fst). unfold l. rewrite map_map. simpl.
    rewrite map_id. exact NdU. }
  pose proof (sorted_by_perm by_value_asc l) as P.
  assert (Hul : In (u, domain_size doms u) (sorted_by by_value_asc l)).
  { apply (Permutation_in _ (Permutation_sym P)).
    apply in_map_iff. exists u. auto. }
  destruct (sorted_by by_value_asc l) as [|p s] eqn:S; [destruct Hul|].
  assert (Hp : p = (u, domain_size doms u)).
  { destruct Hul as [E|Hs]; [exact E|].
    pose proof (sorted_head_least by_value_asc
                  by_value_asc_total by_value_asc_trans l p s S _ Hs) as L.
    unfold by_value_asc in L. apply Nat.leb_le in L. simpl in L.
    destruct (Hl p) as [Hp1 Hp2].
    { apply (Permutation_in _ P). simpl. auto. }
    destruct p as [u' n]. simpl in *. subst n.
    assert (E : u' = u).
    { destruct (Var_eqb u' u) eqn:E; [apply Var_eqb_eq; exact E|].
      assert (N : u' <> u) by (intros ->; rewrite Var_eqb_refl in E; discriminate).
      specialize (Umin u' Hp1 N). lia. }
    subst u'. reflexivity. }
  subst p. destruct s as [|q s]; [reflexivity|].
  assert (Hq : In q l) by (apply (Permutation_in _ P); simpl; auto).
  destruct (Hl q Hq) as [Hq1 Hq2].
  assert (Nq : fst q <> u).
  { intros E. assert (NdS : NoDup ((u, domain_size doms u) :: q :: s)).
    { eapply Permutation_NoDup; [symmetry; exact P | exact Ndl]. }
    inversion NdS as [|? ? Nin _]; subst. apply Nin. left.
    destruct q as [q1 q2]. simpl in *. subst. reflexivity. }
  specialize (Umin (fst q) Hq1 Nq).
  cbn [fst snd]. rewrite Hq2.
  replace (domain_size doms u =? domain_size doms (fst q)) with false
    by (symmetry; apply Nat.eqb_neq; lia).
  reflexivity.
Qed.

Lemma select_unique_minimum_witness :
  select_unassigned_variable
    quartet [(corner_across, ["AB"]); (corner_down, ["AB"; "CD"])] [] =
  Ok corner_across.
Proof.
  apply (select_unique_minimum
           quartet [(corner_across, ["AB"]); (corner_down, ["AB"; "CD"])] []
           corner_across).
  - repeat (constructor; [simpl; intuition discriminate|]). constructor.
  - intros v [<-|[<-|[]]]; eexists; reflexivity.
  - simpl. auto.
  - reflexivity.
  - intros u' [<-|[<-|[]]] _ N; [congruence | vm_compute; lia].
Defined.

(** ** [order_domain_values] *)

Lemma dict_keys_set_absent {K V : Type} (eqb : K -> K -> bool)
    (d : list (K * V)) (k : K) (v : V) :
  dict_get eqb d k = None ->
  dict_keys (dict_set eqb d k v) = dict_keys d ++ [k].
Proof.
  unfold dict_keys.
  induction d as [|[k0 v0] d IH]; simpl; [reflexivity|].
  destruct (eqb k0 k); [discriminate|]. intros H. simpl. rewrite IH; auto.
Qed.

Lemma dict_get_None_not_key {K V : Type} (eqb : K -> K -> bool)
    (eqb_eq : forall a b, eqb a b = true <-> a = b)
    (d : list (K * V)) (k : K) :
  dict_get eqb d k = None -> ~ In k (dict_keys d).
Proof.
  intros H Hin.
  destruct (dict_get_key_present eqb eqb_eq d k Hin) as [v Hv]. congruence.
Qed.

Lemma zero_counts_keys (ws : list string) (acc : Counts) :
  NoDup (dict_keys acc) ->
  NoDup (dict_keys (zero_counts ws acc)) /\
  forall w, In w (dict_keys (zero_counts ws acc)) <->
            In w (dict_keys acc) \/ In w ws.
Proof.
  revert acc. induction ws as [|w0 ws IH]; intros acc N; simpl.
  - split; [exact N | tauto].
  - destruct (dict_get String.eqb acc w0) as [k|] eqn:G.
    + assert (K : dict_keys (dict_set String.eqb acc w0 0) = dict_keys acc)
        by (eapply dict_keys_set_present; exact G).
      destruct (IH (dict_set String.eqb acc w0 0)) as [N' I'];
        [rewrite K; exact N|].
      split; [exact N'|]. intros w. rewrite I', K.
      assert (In w0 (dict_keys acc)).
      { apply (dict_get_In String.eqb String.eqb_eq) in G.
        unfold dict_keys. apply in_map_iff. exists (w0, k). auto. }
      split; [tauto|]. intros [H1|[<-|H1]]; auto.
    + assert (K : dict_keys (dict_set String.eqb acc w0 0) =
                  dict_keys acc ++ [w0])
        by (apply dict_keys_set_absent; exact G).
      pose proof (dict_get_None_not_key String.eqb String.eqb_eq acc w0 G) as Nw.
      destruct (IH (dict_set String.eqb acc w0 0)) as [N' I'].
      { rewrite K. apply NoDup_app; [exact N | repeat constructor; tauto |].
        intros x Hx [<-|[]]. exact (Nw Hx). }
      split; [exact N'|]. intros w. rewrite I', K, in_app_iff. simpl. tauto.
Qed.

Lemma count_words_keys (overlap : Overlap) (word_var : string)
    (dn : list string) (num num' : Counts) :
  count_words overlap word_var dn num = Ok num' ->
  dict_keys num' = dict_keys num.
Proof.
  revert num. induction dn as [|word_n dn IH]; intros num; simpl.
  - intros [= <-]. reflexivity.
  - destruct overlap as [[i j]|]; [|discriminate].
    destruct (str_index word_var i) as [cv|e]; simpl; [|discriminate].
    destruct (str_index word_n j) as [cn|e]; simpl; [|discriminate].
    destruct (negb (Ascii.eqb cv cn)); [|apply IH].
    destruct (dict_get String.eqb num word_var) as [k|] eqn:G; simpl;
      [|discriminate].
    intros H. apply IH in H. rewrite H.
    eapply dict_keys_set_present. exact G.
Qed.

Lemma count_neighbors_keys (cw : Crossword) (doms : Domains) (var : Var)
    (word_var : string) (ns : list Var) (num num' : Counts) :
  count_neighbors cw doms var word_var ns num = Ok num' ->
  dict_keys num' = dict_keys num.
Proof.
  revert num. induction ns as [|n ns IH]; intros num; simpl.
  - intros [= <-]. reflexivity.
  - destruct (overlap_of cw var n) as [o|e]; simpl; [|discriminate].
    destruct (domain_of doms n) as [dn|e]; simpl; [|discriminate].
    destruct (count_words o word_var dn num) as [num1|e] eqn:C; simpl;
      [|discriminate].
    intros H. apply IH in H. rewrite H. eapply count_words_keys. exact C.
Qed.

Lemma count_domain_keys (cw : Crossword) (doms : Domains) (var : Var)
    (ns : list Var) (ws : list string) (num num' : Counts) :
  count_domain cw doms var ns ws num = Ok num' ->
  dict_keys num' = dict_keys num.
Proof.
  revert num. induction ws as [|w ws IH]; intros num; simpl.
  - intros [= <-]. reflexivity.
  - destruct (count_neighbors cw doms var w ns num) as [num1|e] eqn:C; simpl;
      [|discriminate].
    intros H. apply IH in H. rewrite H. eapply count_neighbors_keys. exact C.
Qed.

Lemma order_domain_values_words (cw : Crossword) (doms : Domains) (var : Var)
    (a : Assignment) (values : list string) :
  order_domain_values cw doms var a = Ok values ->
  exists dv,
    domain_of doms var = Ok dv /\
    NoDup values /\
    forall w, In w values <-> In w dv.
Proof.
  unfold order_domain_values.
  destruct (domain_of doms var) as [dv|e]; simpl; [|discriminate].
  destruct (count_domain _ _ _ _ _ _) as [num|e] eqn:C; simpl; [|discriminate].
  intros [= <-]. exists dv. split; [reflexivity|].
  apply count_domain_keys in C.
  destruct (zero_counts_keys dv []) as [N I]; [constructor|].
  rewrite <- C in N, I.
  assert (P : Permutation (map fst (sorted_by by_value_asc num)) (dict_keys num))
    by (apply Permutation_map, sorted_by_perm).
  split.
  - eapply Permutation_NoDup; [symmetry; exact P | exact N].
  - intros w. split.
    + intros H. apply (Permutation_in _ P) in H. apply I in H.
      destruct H as [[]|H]. exact H.
    + intros H. apply (Permutation_in _ (Permutation_sym P)). apply I. auto.
Qed.

(** X15: whenever [order_domain_values] returns, it returns the words of
    [var]'s domain and nothing else, each once. *)
Theorem order_domain_values_exactly_domain (cw : Crossword) (doms : Domains)
    (var : Var) (a : Assignment) (values : list string) :
  order_domain_values cw doms var a = Ok values ->
  exists dv,
    domain_of doms var = Ok dv /\
    NoDup values /\
    forall w, In w values <-> In w dv.
Proof. apply order_domain_values_words. Qed.

Lemma order_domain_values_exactly_domain_witness :
  exists dv,
    domain_of (enforce_node_consistency (init_domains quartet)) corner_across =
    Ok dv /\
    NoDup ["CD"; "CB"; "CE"; "AB"] /\
    forall w, In w ["CD"; "CB"; "CE"; "AB"] <-> In w dv.
Proof.
  apply (order_domain_values_exactly_domain
           quartet (enforce_node_consistency (init_domains quartet))
           corner_across []).
  reflexivity.
Defined.

Lemma count_domain_no_neighbors (cw : Crossword) (doms : Domains) (var : Var)
    (ws : list string) (num : Counts) :
  count_domain cw doms var [] ws num = Ok num.
Proof. induction ws as [|w ws IH]; simpl; auto. Qed.

Lemma sorted_by_all_related {A : Type} (le : A -> A -> bool) (l : list A) :
  (forall x y, In x l -> In y l -> le x y = true) ->
  sorted_by le l = l.
Proof.
  induction l as [|x l IH]; simpl; intros H; [reflexivity|].
  rewrite IH by (intros; apply H; auto).
  destruct l as [|y l]; [reflexivity|]. simpl.
  rewrite H by (simpl; auto). reflexivity.
Qed.

(** X16: when [var] has no unassigned neighbor, no word rules anything
    out and [order_domain_values] returns the domain in its own order. *)
Theorem order_domain_values_no_neighbor (cw : Crossword) (doms : Domains)
    (var : Var) (a : Assignment) (dv : list string) :
  domain_of doms var = Ok dv ->
  NoDup dv ->
  unassigned_neighbors cw a var = [] ->
  order_domain_values cw doms var a = Ok dv.
Proof.
  intros Hd N Hn. unfold order_domain_values. rewrite Hd, Hn. simpl.
  rewrite count_domain_no_neighbors. simpl.
  rewrite (zero_counts_NoDup dv [] N) by (intros w _ []). simpl.
  rewrite sorted_by_all_related.
  - rewrite map_map. simpl. rewrite map_id. reflexivity.
  - intros x y Hx Hy.
    apply in_map_iff in Hx as [wx [<- _]]. apply in_map_iff in Hy as [wy [<- _]].
    reflexivity.
Qed.

Lemma order_domain_values_no_neighbor_witness :
  order_domain_values corner (enforce_node_consistency (init_domains corner))
                      corner_down [(corner_across, "AB")] = Ok ["AB"; "CD"].
Proof.
  apply (order_domain_values_no_neighbor
           corner (enforce_node_consistency (init_domains corner))
           corner_down [(corner_across, "AB")] ["AB"; "CD"]).
  - reflexivity.
  - repeat (constructor; [simpl; intuition discriminate|]). constructor.
  - reflexivity.
Defined.

(** ** [backtrack] *)

Lemma backtrack_unfold (fuel : nat) (cw : Crossword) (doms : Domains)
    (a : Assignment) :
  backtrack (S fuel) cw doms a =
  if assignment_complete cw a
  then Some (Ok (Some a), a)
  else
    match select_unassigned_variable cw doms a with
    | Raise e => Some (Raise e, a)
    | Ok var =>
        match order_domain_values cw doms var a with
        | Raise e => Some (Raise e, a)
        | Ok values => try_values cw (backtrack fuel cw doms) var values a
        end
    end.
Proof. reflexivity. Qed.

Section PopFacts.
Context {K V : Type} (eqb : K -> K -> bool).
Hypothesis eqb_eq : forall a b, eqb a b = true <-> a = b.

Lemma dict_pop_absent (d : list (K * V)) (k : K) :
  dict_get eqb d k = None -> dict_pop eqb d k = d.
Proof.
  induction d as [|[k0 v0] d IH]; simpl; [reflexivity|].
  destruct (eqb k0 k); [discriminate|]. intros H. rewrite IH; auto.
Qed.

Lemma dict_pop_set_absent (d : list (K * V)) (k : K) (v : V) :
  dict_get eqb d k = None -> dict_pop eqb (dict_set eqb d k v) k = d.
Proof.
  induction d as [|[k0 v0] d IH]; simpl.
  - intros _. replace (eqb k k) with true; [reflexivity|].
    symmetry. apply eqb_eq. reflexivity.
  - destruct (eqb k0 k) eqn:E; [discriminate|]. intros H.
    simpl. rewrite E, IH; auto.
Qed.

Lemma dict_set_NoDup_keys (d : list (K * V)) (k : K) (v : V) :
  NoDup (dict_keys d) -> NoDup (dict_keys (dict_set eqb d k v)).
Proof.
  intros N. destruct (dict_get eqb d k) as [v0|] eqn:G.
  - erewrite dict_keys_set_present; eauto.
  - rewrite dict_keys_set_absent by exact G.
    apply NoDup_app; [exact N | repeat constructor; tauto |].
    intros x Hx [<-|[]].
    exact (dict_get_None_not_key eqb eqb_eq d k G Hx).
Qed.
End PopFacts.

Lemma dict_mem_false_get (a : Assignment) (v : Var) :
  dict_mem Var_eqb a v = false -> dict_get Var_eqb a v = None.
Proof. unfold dict_mem. destruct (dict_get Var_eqb a v); congruence. Qed.

Lemma select_not_bound (cw : Crossword) (doms : Domains) (a : Assignment)
    (var : Var) :
  select_unassigned_variable cw doms a = Ok var ->
  In var (variables cw) /\ dict_get Var_eqb a var = None.
Proof.
  intros H. apply select_unassigned_variable_In in H.
  apply unassigned_variables_In in H as [H1 H2].
  split; [exact H1 | apply dict_mem_false_get; exact H2].
Qed.

(** The loop returns [None] only with the assignment it was given, when the
    recursive call does so too. *)
Lemma try_values_restores (cw : Crossword)
    (rec : Assignment -> option (outcome (option Assignment) * Assignment))
    (var : Var) (a : Assignment) :
  dict_get Var_eqb a var = None ->
  (forall a1 a2, rec a1 = Some (Ok None, a2) -> a2 = a1) ->
  forall values a',
    try_values cw rec var values a = Some (Ok None, a') -> a' = a.
Proof.
  intros Hv Hrec values. induction values as [|value values IH]; intros a'.
  - simpl. intros [= <-]. reflexivity.
  - simpl. destruct (consistent cw (dict_set Var_eqb a var value))
      as [[|]|e]; [| |discriminate].
    + destruct (rec (dict_set Var_eqb a var value))
        as [[[[r|]|e] a1]|] eqn:R; try discriminate.
      apply Hrec in R. subst a1.
      rewrite (dict_pop_set_absent Var_eqb Var_eqb_eq) by exact Hv. apply IH.
    + rewrite (dict_pop_absent Var_eqb) by exact Hv. apply IH.
Qed.

Lemma backtrack_restores (fuel : nat) (cw : Crossword) (doms : Domains)
    (a a' : Assignment) :
  backtrack fuel cw doms a = Some (Ok None, a') -> a' = a.
Proof.
  revert a a'. induction fuel as [|fuel IH]; intros a a'; [discriminate|].
  rewrite backtrack_unfold.
  destruct (assignment_complete cw a); [discriminate|].
  destruct (select_unassigned_variable cw doms a) as [var|e] eqn:S;
    [|discriminate].
  destruct (order_domain_values cw doms var a) as [values|e]; [|discriminate].
  apply select_not_bound in S as [_ S].
  apply try_values_restores; [exact S | exact IH].
Qed.

(** X17: a call of [backtrack] that returns [None] leaves the shared
    assignment exactly as it received it: every tentative binding made below
    it has been removed again. *)
Theorem backtrack_failure_restores_assignment (fuel : nat) (cw : Crossword)
    (doms : Domains) (a a' : Assignment) :
  backtrack fuel cw doms a = Some (Ok None, a') -> a' = a.
Proof. apply backtrack_restores. Qed.

(** Both slots of [corner] with the single candidate ["AB"]: the across
    slot takes it, the down slot cannot, and the binding is withdrawn. *)
Lemma backtrack_failure_restores_assignment_witness :
  backtrack 3 corner [(corner_across, ["AB"]); (corner_down, ["AB"])] [] =
  Some (Ok None, []) /\
  ([] : Assignment) = [].
Proof.
  split; [reflexivity|].
  apply (backtrack_failure_restores_assignment
           3 corner [(corner_across, ["AB"]); (corner_down, ["AB"])] [] []).
  reflexivity.
Defined.

(** *** Termination *)

Lemma dict_mem_set (a : Assignment) (var v : Var) (w : string) :
  dict_mem Var_eqb (dict_set Var_eqb a var w) v =
  Var_eqb var v || dict_mem Var_eqb a v.
Proof.
  unfold dict_mem. destruct (Var_eqb var v) eqn:E.
  - apply Var_eqb_eq in E. subst v.
    rewrite (dict_get_set_same Var_eqb Var_eqb_eq). reflexivity.
  - rewrite (dict_get_set_other Var_eqb Var_eqb_eq); [reflexivity|].
    intros ->. rewrite Var_eqb_refl in E. discriminate.
Qed.

Lemma filter_length_lt {A : Type} (f g : A -> bool) (l : list A) (x : A) :
  (forall y, g y = true -> f y = true) ->
  In x l -> f x = true -> g x = false ->
  List.length (filter g l) < List.length (filter f l).
Proof.
  intros Hgf. induction l as [|y l IH]; simpl; [tauto|].
  assert (Hle : List.length (filter g l) <= List.length (filter f l)).
  { clear IH. induction l as [|z l IHl]; simpl; [lia|].
    destruct (g z) eqn:G; [rewrite (Hgf z G); simpl; lia|].
    destruct (f z); simpl; lia. }
  intros [->|Hx] Fx Gx.
  - rewrite Fx, Gx. simpl. lia.
  - specialize (IH Hx Fx Gx).
    destruct (g y) eqn:G; [rewrite (Hgf y G); simpl; lia|].
    destruct (f y); simpl; lia.
Qed.

Lemma unassigned_after_binding (cw : Crossword) (a : Assignment) (var : Var)
    (w : string) :
  In var (variables cw) -> dict_get Var_eqb a var = None ->
  List.length (unassigned_variables cw (dict_set Var_eqb a var w)) <
  List.length (unassigned_variables cw a).
Proof.
  intros Hin Hg. unfold unassigned_variables.
  apply (filter_length_lt _ _ _ var).
  - intros y. rewrite dict_mem_set. destruct (Var_eqb var y); simpl; auto.
    discriminate.
  - exact Hin.
  - unfold dict_mem. rewrite Hg. reflexivity.
  - rewrite dict_mem_set, Var_eqb_refl. reflexivity.
Qed.

Lemma consistent_never_raises (cw : Crossword) (a : Assignment) (e : exn) :
  consistent cw a <> Raise e.
Proof. rewrite consistent_is_consistent_words. discriminate. Qed.

Lemma try_values_returns (cw : Crossword)
    (rec : Assignment -> option (outcome (option Assignment) * Assignment))
    (var : Var) (a : Assignment) :
  dict_get Var_eqb a var = None ->
  (forall a1 a2, rec a1 = Some (Ok None, a2) -> a2 = a1) ->
  (forall w, exists res, rec (dict_set Var_eqb a var w) = Some res) ->
  forall values, exists res, try_values cw rec var values a = Some res.
Proof.
  intros Hv Hrec Hret values. induction values as [|value values IH].
  - simpl. eauto.
  - simpl. destruct (consistent cw (dict_set Var_eqb a var value))
      as [[|]|e]; [| |eauto].
    + destruct (Hret value) as [[[[r|]|e] a1] R]; rewrite R; eauto.
      apply Hrec in R. subst a1.
      rewrite (dict_pop_set_absent Var_eqb Var_eqb_eq) by exact Hv. exact IH.
    + rewrite (dict_pop_absent Var_eqb) by exact Hv. exact IH.
Qed.

Lemma backtrack_returns (fuel : nat) (cw : Crossword) (doms : Domains)
    (a : Assignment) :
  List.length (unassigned_variables cw a) < fuel ->
  exists res, backtrack fuel cw doms a = Some res.
Proof.
  revert a. induction fuel as [|fuel IH]; intros a L; [lia|].
  rewrite backtrack_unfold.
  destruct (assignment_complete cw a); [eauto|].
  destruct (select_unassigned_variable cw doms a) as [var|e] eqn:S; [|eauto].
  destruct (order_domain_values cw doms var a) as [values|e]; [|eauto].
  apply select_not_bound in S as [Hin Hg].
  apply try_values_returns.
  - exact Hg.
  - intros a1 a2. apply backtrack_restores.
  - intros w. apply IH.
    pose proof (unassigned_after_binding cw a var w Hin Hg). lia.
Qed.

(** X18: [backtrack] terminates: its recursion is never deeper than the
    number of variables the assignment leaves unbound, so with fuel beyond
    that number it returns (a result, [None], or an exception). *)
Theorem backtrack_terminates (fuel : nat) (cw : Crossword) (doms : Domains)
    (a : Assignment) :
  List.length (unassigned_variables cw a) < fuel ->
  exists res, backtrack fuel cw doms a = Some res.
Proof. apply backtrack_returns. Qed.

Lemma backtrack_terminates_witness :
  exists res,
    backtrack 3 corner (enforce_node_consistency (init_domains corner)) [] =
    Some res.
Proof.
  apply (backtrack_terminates
           3 corner (enforce_node_consistency (init_domains corner)) []).
  simpl. lia.
Defined.

(** *** Soundness *)

Lemma extends_set (a : Assignment) (var : Var) (w : string) :
  dict_get Var_eqb a var = None -> extends a (dict_set Var_eqb a var w).
Proof.
  intros Hv v w' H.
  rewrite (dict_get_set_other Var_eqb Var_eqb_eq); [exact H|].
  intros ->. congruence.
Qed.

Lemma found_from_step (cw : Crossword) (doms : Domains) (a r : Assignment)
    (var : Var) (value : string) (dv : list string) :
  dict_get Var_eqb a var = None ->
  dict_get Var_eqb doms var = Some dv -> In value dv ->
  consistent cw (dict_set Var_eqb a var value) = Ok true ->
  found_from cw doms (dict_set Var_eqb a var value) r ->
  found_from cw doms a r.
Proof.
  intros Hv Hd Hin Hc (C & E & W & P).
  rewrite consistent_is_consistent_words in Hc. injection Hc as Hc.
  repeat split.
  - exact C.
  - intros v w H. apply E. apply extends_set; assumption.
  - intros _. apply W. exact Hc.
  - intros v w H. destruct (P v w H) as [H1|H1]; [|auto].
    destruct (Var_eqb var v) eqn:Ev.
    + apply Var_eqb_eq in Ev. subst v.
      rewrite (dict_get_set_same Var_eqb Var_eqb_eq) in H1.
      injection H1 as <-. right. eauto.
    + rewrite (dict_get_set_other Var_eqb Var_eqb_eq) in H1; [auto|].
      intros ->. rewrite Var_eqb_refl in Ev. discriminate.
Qed.

Lemma try_values_sound (cw : Crossword) (doms : Domains)
    (rec : Assignment -> option (outcome (option Assignment) * Assignment))
    (var : Var) (a : Assignment) (dv : list string) :
  dict_get Var_eqb a var = None ->
  dict_get Var_eqb doms var = Some dv ->
  (forall a1 a2, rec a1 = Some (Ok None, a2) -> a2 = a1) ->
  (forall a1 r a2, rec a1 = Some (Ok (Some r), a2) ->
                   r = a2 /\ found_from cw doms a1 r) ->
  forall values r a',
    incl values dv ->
    try_values cw rec var values a = Some (Ok (Some r), a') ->
    r = a' /\ found_from cw doms a r.
Proof.
  intros Hv Hd Hres Hrec values.
  induction values as [|value values IH]; intros r a' I; [discriminate|].
  assert (I' : incl values dv) by (intros w Hw; apply I; simpl; auto).
  simpl. destruct (consistent cw (dict_set Var_eqb a var value))
    as [[|]|e] eqn:C; [| |discriminate].
  - destruct (rec (dict_set Var_eqb a var value))
      as [[[[r1|]|e] a1]|] eqn:R; try discriminate.
    + intros [= <- <-]. destruct (Hrec _ _ _ R) as [-> F].
      split; [reflexivity|].
      eapply found_from_step; eauto. apply I. simpl. auto.
    + apply Hres in R. subst a1.
      rewrite (dict_pop_set_absent Var_eqb Var_eqb_eq) by exact Hv.
      apply IH. exact I'.
  - rewrite (dict_pop_absent Var_eqb) by exact Hv. apply IH. exact I'.
Qed.

Lemma backtrack_sound (fuel : nat) (cw : Crossword) (doms : Domains)
    (a r a' : Assignment) :
  backtrack fuel cw doms a = Some (Ok (Some r), a') ->
  r = a' /\ found_from cw doms a r.
Proof.
  revert a r a'. induction fuel as [|fuel IH]; intros a r a'; [discriminate|].
  rewrite backtrack_unfold.
  destruct (assignment_complete cw a) eqn:C.
  - intros [= <- <-]. split; [reflexivity|].
    repeat split; auto. intros v w H. exact H.
  - destruct (select_unassigned_variable cw doms a) as [var|e] eqn:S;
      [|discriminate].
    destruct (order_domain_values cw doms var a) as [values|e] eqn:O;
      [|discriminate].
    apply select_not_bound in S as [_ Hv].
    apply order_domain_values_words in O as (dv & Hd & _ & Hin).
    apply of_option_Ok in Hd.
    apply (try_values_sound cw doms _ var a dv); auto.
    + intros a1 a2. apply backtrack_restores.
    + intros w Hw. apply Hin. exact Hw.
Qed.

(** X19: an assignment returned by [backtrack] is the shared dictionary
    itself; it is complete, keeps every binding it started with, binds the
    other variables to words of their current domains, and passes
    [consistent] whenever the assignment it started from did. *)
Theorem backtrack_result_sound (fuel : nat) (cw : Crossword) (doms : Domains)
    (a r a' : Assignment) :
  consistent cw a = Ok true ->
  backtrack fuel cw doms a = Some (Ok (Some r), a') ->
  r = a' /\
  assignment_complete cw r = true /\
  consistent cw r = Ok true /\
  extends a r /\
  (forall v w, dict_get Var_eqb r v = Some w ->
               dict_get Var_eqb a v = Some w \/
               exists dv, dict_get Var_eqb doms v = Some dv /\ In w dv).
Proof.
  intros Hc H. apply backtrack_sound in H as (E & C & X & W & P).
  rewrite consistent_is_consistent_words in Hc. injection Hc as Hc.
  rewrite consistent_is_consistent_words, (W Hc). auto.
Qed.

Lemma backtrack_result_sound_witness :
  [(corner_across, "AB"); (corner_down, "CD")] =
  [(corner_across, "AB"); (corner_down, "CD")] /\
  assignment_complete corner [(corner_across, "AB"); (corner_down, "CD")] =
  true /\
  consistent corner [(corner_across, "AB"); (corner_down, "CD")] = Ok true /\
  extends [(corner_across, "AB")]
          [(corner_across, "AB"); (corner_down, "CD")] /\
  (forall v w,
      dict_get Var_eqb [(corner_across, "AB"); (corner_down, "CD")] v =
      Some w ->
      dict_get Var_eqb [(corner_across, "AB")] v = Some w \/
      exists dv,
        dict_get Var_eqb (enforce_node_consistency (init_domains corner)) v =
        Some dv /\ In w dv).
Proof.
  apply (backtrack_result_sound
           3 corner (enforce_node_consistency (init_domains corner))
           [(corner_across, "AB")]).
  - reflexivity.
  - reflexivity.
Defined.

Lemma init_domains_get (cw : Crossword) (v : Var) (ws : list string) :
  dict_get Var_eqb (init_domains cw) v = Some ws -> ws = words cw.
Proof.
  intros H. apply (dict_get_In Var_eqb Var_eqb_eq) in H.
  unfold init_domains in H. apply in_map_iff in H as [u [[= _ <-] _]].
  reflexivity.
Qed.

Lemma assignment_complete_binds (cw : Crossword) (a : Assignment) :
  assignment_complete cw a = true ->
  forall v, In v (variables cw) ->
            exists w, dict_get Var_eqb a v = Some w /\ w <> "".
Proof.
  unfold assignment_complete. rewrite forallb_forall. intros H v Hv.
  specialize (H v Hv).
  destruct (dict_get Var_eqb a v) as [w|]; [|discriminate].
  exists w. split; [reflexivity|]. intros ->. discriminate.
Qed.

(** X20: an assignment returned by [solve] on a freshly created solver
    binds every variable of the puzzle to a non-empty word of the
    vocabulary that has the variable's length, and no word is used twice. *)
Theorem solve_result_sound (fuel : nat) (cw : Crossword) (r : Assignment)
    (doms' : Domains) :
  create_and_solve fuel cw = Some (Ok (Some r), doms') ->
  words_distinct r /\
  forall v, In v (variables cw) ->
            exists w, dict_get Var_eqb r v = Some w /\
                      w <> "" /\
                      In w (words cw) /\
                      String.length w = v_length v.
Proof.
  unfold create_and_solve. intros H.
  assert (S : shrinks_to (init_domains cw) doms').
  { destruct (solve_store_shrinks _ _ _ _ _ H) as [r0 A].
    eapply shrinks_to_trans; [apply enforce_node_consistency_shrinks|].
    unfold ac3 in A. eapply ac3_loop_shrinks. exact A. }
  unfold solve in H.
  destruct (ac3 fuel cw None (enforce_node_consistency (init_domains cw)))
    as [[[b|e] d2]|]; try discriminate.
  destruct (backtrack fuel cw d2 []) as [[r1 a1]|] eqn:B; [|discriminate].
  injection H as -> <-.
  apply backtrack_sound in B as (_ & C & _ & W & P).
  specialize (W eq_refl).
  apply consistent_words_spec in W as (Hl & Nd & _).
  split; [exact Nd|]. intros v Hv.
  destruct (assignment_complete_binds cw r C v Hv) as (w & Hw & Ne).
  exists w. repeat split; auto.
  - destruct (P v w Hw) as [H0 | (dv & Hd & Hin)]; [discriminate|].
    destruct (shrinks_to_get _ _ _ _ S Hd) as (ws & Hws & I & _).
    apply init_domains_get in Hws. subst ws. apply I. exact Hin.
  - apply Hl. apply (dict_get_In Var_eqb Var_eqb_eq). exact Hw.
Qed.

Lemma solve_result_sound_witness :
  words_distinct [(corner_across, "AB"); (corner_down, "CD")] /\
  forall v, In v (variables corner) ->
            exists w,
              dict_get Var_eqb [(corner_across, "AB"); (corner_down, "CD")] v =
              Some w /\
              w <> "" /\
              In w (words corner) /\
              String.length w = v_length v.
Proof.
  apply (solve_result_sound
           3 corner [(corner_across, "AB"); (corner_down, "CD")]
           [(corner_across, ["AB"; "CD"]); (corner_down, ["AB"; "CD"])]).
  reflexivity.
Defined.

(** *** Exhaustiveness *)

Lemma try_values_none_all (cw : Crossword)
    (rec : Assignment -> option (outcome (option Assignment) * Assignment))
    (var : Var) (a : Assignment) :
  dict_get Var_eqb a var = None ->
  (forall a1 a2, rec a1 = Some (Ok None, a2) -> a2 = a1) ->
  forall values a',
    try_values cw rec var values a = Some (Ok None, a') ->
    forall value, In value values ->
      consistent cw (dict_set Var_eqb a var value) = Ok false \/
      exists a2, rec (dict_set Var_eqb a var value) = Some (Ok None, a2).
Proof.
  intros Hv Hres values. induction values as [|v0 values IH]; intros a' H value;
    [intros []|].
  simpl in H. intros [<-|Hin].
  - destruct (consistent cw (dict_set Var_eqb a var v0)) as [[|]|e];
      [| auto | discriminate].
    destruct (rec (dict_set Var_eqb a var v0)) as [[[[r|]|e] a1]|];
      try discriminate. eauto.
  - destruct (consistent cw (dict_set Var_eqb a var v0)) as [[|]|e];
      [| | discriminate].
    + destruct (rec (dict_set Var_eqb a var v0)) as [[[[r|]|e] a1]|] eqn:R;
        try discriminate.
      apply Hres in R. subst a1.
      rewrite (dict_pop_set_absent Var_eqb Var_eqb_eq) in H by exact Hv.
      eapply IH; eauto.
    + rewrite (dict_pop_absent Var_eqb) in H by exact Hv.
      eapply IH; eauto.
Qed.

Lemma In_dict_get (a : Assignment) (v : Var) (w : string) :
  NoDup (dict_keys a) -> In (v, w) a -> dict_get Var_eqb a v = Some w.
Proof.
  unfold dict_keys. induction a as [|[k x] a IH]; simpl; [tauto|].
  intros N. inversion N as [|? ? Nk Na]; subst.
  intros [[= -> ->]|H].
  - rewrite Var_eqb_refl. reflexivity.
  - destruct (Var_eqb k v) eqn:E; [|auto].
    apply Var_eqb_eq in E. subst k. exfalso. apply Nk.
    apply in_map_iff. exists (v, w). auto.
Qed.

Lemma NoDup_map_snd_inj (b : Assignment) (v1 v2 : Var) (w : string) :
  NoDup (map snd b) -> In (v1, w) b -> In (v2, w) b -> v1 = v2.
Proof.
  induction b as [|[k x] b IH]; simpl; [tauto|].
  intros N. inversion N as [|? ? Nx Nb]; subst.
  assert (Hin : forall v, In (v, x) b -> In x (map snd b)).
  { intros v H. apply in_map_iff. exists (v, x). auto. }
  intros [H1|H1] [H2|H2]; auto.
  - congruence.
  - injection H1 as -> ->. exfalso. eauto.
  - injection H2 as -> ->. exfalso. eauto.
Qed.

Lemma words_distinct_sub (a b : Assignment) :
  NoDup (dict_keys a) ->
  (forall v w, In (v, w) a -> In (v, w) b) ->
  NoDup (map snd b) -> NoDup (map snd a).
Proof.
  unfold dict_keys. induction a as [|[k x] a IH]; simpl; intros N S Nb;
    [constructor|].
  inversion N as [|? ? Nk Na]; subst. constructor.
  - intros H. apply in_map_iff in H as [[k' x'] [E H]]. simpl in E. subst x'.
    assert (k = k').
    { apply (NoDup_map_snd_inj b k k' x Nb); apply S; auto. }
    subst k'. apply Nk. apply in_map_iff. exists (k, x). auto.
  - apply IH; auto.
Qed.

(** A restriction of an accepted assignment to distinct keys is accepted. *)
Lemma consistent_sub (cw : Crossword) (a b : Assignment) :
  NoDup (dict_keys a) -> extends a b ->
  consistent cw b = Ok true -> consistent cw a = Ok true.
Proof.
  intros N E Hb. apply consistent_Ok_true in Hb as [Db Lb].
  assert (S : forall v w, In (v, w) a -> In (v, w) b).
  { intros v w H. apply (dict_get_In Var_eqb Var_eqb_eq). apply E.
    apply In_dict_get; assumption. }
  apply consistent_Ok_true. split.
  - eapply words_distinct_sub; eauto.
  - intros v w H. apply Lb. auto.
Qed.

Lemma extends_set_of (a b : Assignment) (var : Var) (w : string) :
  extends a b -> dict_get Var_eqb b var = Some w ->
  extends (dict_set Var_eqb a var w) b.
Proof.
  intros E Hb v w' H.
  destruct (Var_eqb var v) eqn:Ev.
  - apply Var_eqb_eq in Ev. subst v.
    rewrite (dict_get_set_same Var_eqb Var_eqb_eq) in H. congruence.
  - rewrite (dict_get_set_other Var_eqb Var_eqb_eq) in H; [auto|].
    intros ->. rewrite Var_eqb_refl in Ev. discriminate.
Qed.

Lemma backtrack_exhaustive (fuel : nat) (cw : Crossword) (doms : Domains)
    (a a' b : Assignment) :
  NoDup (dict_keys a) ->
  backtrack fuel cw doms a = Some (Ok None, a') ->
  extends a b -> accepted_solution cw doms b -> False.
Proof.
  revert a a'. induction fuel as [|fuel IH]; intros a a' N; [discriminate|].
  rewrite backtrack_unfold.
  destruct (assignment_complete cw a); [discriminate|].
  destruct (select_unassigned_variable cw doms a) as [var|e] eqn:S;
    [|discriminate].
  destruct (order_domain_values cw doms var a) as [values|e] eqn:O;
    [|discriminate].
  apply select_not_bound in S as [Hin Hv].
  apply order_domain_values_words in O as (dv & Hd & _ & Hvals).
  apply of_option_Ok in Hd.
  intros T E (Cb & Kb & Db).
  destruct (assignment_complete_binds cw b Cb var Hin) as (w & Hw & _).
  destruct (Db var w Hin Hw) as (dv' & Hd' & Hwd).
  assert (dv' = dv) by congruence. subst dv'.
  assert (N1 : NoDup (dict_keys (dict_set Var_eqb a var w)))
    by (apply (dict_set_NoDup_keys Var_eqb Var_eqb_eq); exact N).
  assert (E1 : extends (dict_set Var_eqb a var w) b)
    by (apply extends_set_of; assumption).
  destruct (try_values_none_all cw _ var a Hv
              (fun a1 a2 => backtrack_restores fuel cw doms a1 a2)
              values a' T w) as [C | [a2 R]].
  - apply Hvals. exact Hwd.
  - rewrite (consistent_sub cw _ b N1 E1 Kb) in C. discriminate.
  - apply (IH _ a2 N1 R E1). repeat split; assumption.
Qed.

(** X21: the answer [None] of [backtrack] is definitive for the check the
    search applies: when [backtrack] returns [None], no complete assignment
    that extends the given one, passes [consistent] and takes its words
    from the current domains exists. *)
Theorem backtrack_none_is_definitive (fuel : nat) (cw : Crossword)
    (doms : Domains) (a a' : Assignment) :
  NoDup (dict_keys a) ->
  backtrack fuel cw doms a = Some (Ok None, a') ->
  ~ exists b, extends a b /\ accepted_solution cw doms b.
Proof.
  intros N H [b [E A]]. eapply backtrack_exhaustive; eauto.
Qed.

Lemma backtrack_none_is_definitive_witness :
  ~ exists b,
      extends [] b /\
      accepted_solution corner
        [(corner_across, ["AB"]); (corner_down, ["AB"])] b.
Proof.
  apply (backtrack_none_is_definitive
           3 corner [(corner_across, ["AB"]); (corner_down, ["AB"])] [] []).
  - constructor.
  - reflexivity.
Defined.

(** X22: when [solve] reports no solution, no complete assignment that
    passes [consistent] can be drawn from the domains it pruned. *)
Theorem solve_none_is_definitive (fuel : nat) (cw : Crossword)
    (doms doms' : Domains) :
  solve fuel cw doms = Some (Ok None, doms') ->
  ~ exists b, accepted_solution cw doms' b.
Proof.
  unfold solve.
  destruct (ac3 fuel cw None (enforce_node_consistency doms))
    as [[[b0|e] d2]|]; try discriminate.
  destruct (backtrack fuel cw d2 []) as [[r1 a1]|] eqn:B; [|discriminate].
  intros [= -> <-] [b A].
  eapply (backtrack_exhaustive fuel cw d2 [] a1 b); eauto.
  - constructor.
  - intros v w H. discriminate.
Qed.

Lemma solve_none_is_definitive_witness :
  ~ exists b, accepted_solution ell [(ell_across, []); (ell_down, [])] b.
Proof.
  apply (solve_none_is_definitive 3 ell (init_domains ell)).
  reflexivity.
Defined.

(** ** [letter_grid] *)

Lemma list_assign_Ok {A : Type} (l : list A) (n : nat) (x : A) :
  n < List.length l ->
  exists l', list_assign l n x = Ok l' /\
             List.length l' = List.length l /\
             forall m, nth_error l' m =
                       if m =? n then Some x else nth_error l m.
Proof.
  revert n. induction l as [|y l IH]; simpl; intros n L; [lia|].
  destruct n as [|n].
  - eexists. split; [reflexivity|]. split; [reflexivity|].
    intros [|m]; reflexivity.
  - destruct (IH n) as (l' & E & Len & Nth); [lia|].
    rewrite E. simpl. eexists. split; [reflexivity|].
    split; [simpl; congruence|].
    intros [|m]; simpl; [reflexivity | apply Nth].
Qed.

Lemma list_assign_range {A : Type} (l l' : list A) (n : nat) (x : A) :
  list_assign l n x = Ok l' -> n < List.length l.
Proof.
  revert n l'. induction l as [|y l IH]; simpl; intros n l'; [discriminate|].
  destruct n as [|n]; [lia|].
  destruct (list_assign l n x) as [l1|e] eqn:E; simpl; [|discriminate].
  intros _. apply IH in E. lia.
Qed.

Lemma rectangular_row (height width : nat) (g : Grid) (i : nat)
    (row : list (option ascii)) :
  rectangular height width g -> nth_error g i = Some row ->
  List.length row = width.
Proof.
  intros [_ F] H. rewrite Forall_forall in F. apply F.
  eapply nth_error_In. exact H.
Qed.

(** One assignment to a cell: it succeeds exactly inside the grid, changes
    that cell and no other, and keeps the shape of the grid. *)
Lemma grid_assign_Ok (height width : nat) (g : Grid) (i j : nat) (ch : ascii) :
  rectangular height width g -> i < height -> j < width ->
  exists g', grid_assign g i j ch = Ok g' /\
             rectangular height width g' /\
             forall r c, cell g' r c =
                         if (r =? i) && (c =? j)
                         then Some (Some ch) else cell g r c.
Proof.
  intros R Hi Hj. pose proof R as [Len F].
  destruct (nth_error g i) as [row|] eqn:Hrow.
  2:{ apply nth_error_None in Hrow. lia. }
  pose proof (rectangular_row _ _ _ _ _ R Hrow) as Lrow.
  destruct (list_assign_Ok row j (Some ch)) as (row' & E1 & L1 & N1); [lia|].
  destruct (list_assign_Ok g i row') as (g' & E2 & L2 & N2); [lia|].
  exists g'. unfold grid_assign, list_index. rewrite Hrow. simpl.
  rewrite E1. simpl. split; [exact E2|]. split.
  - split; [lia|]. apply Forall_forall. intros x Hx.
    apply In_nth_error in Hx as [m Hm]. rewrite N2 in Hm.
    destruct (m =? i).
    + injection Hm as <-. lia.
    + rewrite Forall_forall in F. apply F. eapply nth_error_In. exact Hm.
  - intros r c. unfold cell. rewrite N2.
    destruct (r =? i) eqn:Er; simpl; [|reflexivity].
    apply Nat.eqb_eq in Er. subst r. rewrite N1, Hrow.
    destruct (c =? j); reflexivity.
Qed.

Lemma grid_assign_range (height width : nat) (g g' : Grid) (i j : nat)
    (ch : ascii) :
  rectangular height width g -> grid_assign g i j ch = Ok g' ->
  i < height /\ j < width.
Proof.
  intros R. unfold grid_assign, list_index.
  destruct (nth_error g i) as [row|] eqn:Hrow; simpl; [|discriminate].
  pose proof (rectangular_row _ _ _ _ _ R Hrow) as Lrow.
  destruct (list_assign row j (Some ch)) as [row'|e] eqn:E1; simpl;
    [|discriminate].
  intros E2. apply list_assign_range in E1. apply list_assign_range in E2.
  destruct R as [Len _]. lia.
Qed.

Lemma blank_grid_rectangular (height width : nat) :
  rectangular height width (blank_grid height width).
Proof.
  unfold rectangular, blank_grid. split; [apply repeat_length|].
  apply Forall_forall. intros row H. apply repeat_spec in H. subst.
  apply repeat_length.
Qed.

Lemma nth_error_repeat_lt {A : Type} (x : A) (n m : nat) :
  m < n -> nth_error (repeat x n) m = Some x.
Proof.
  revert m. induction n as [|n IH]; intros m L; [lia|].
  destruct m; simpl; [reflexivity | apply IH; lia].
Qed.

Lemma blank_grid_cell (height width r c : nat) :
  r < height -> c < width -> cell (blank_grid height width) r c = Some None.
Proof.
  intros Hr Hc. unfold cell, blank_grid.
  rewrite nth_error_repeat_lt by exact Hr.
  apply nth_error_repeat_lt. exact Hc.
Qed.

Lemma fits_from_cons (height width : nat) (v : Var) (k : nat) (c0 : ascii)
    (rest : string) :
  fits_from height width v k (String c0 rest) <->
  (v_i v + (if is_DOWN (v_direction v) then k else 0) < height /\
   v_j v + (if is_ACROSS (v_direction v) then k else 0) < width) /\
  fits_from height width v (S k) rest.
Proof.
  unfold fits_from, is_DOWN, is_ACROSS.
  destruct (v_direction v); simpl; split.
  - intros [H|H]; [discriminate|]. split; [lia|].
    destruct rest; [left; reflexivity | right; simpl in *; lia].
  - intros [[H1 H2] [H|H]]; right; [subst rest; simpl; lia | lia].
  - intros [H|H]; [discriminate|]. split; [lia|].
    destruct rest; [left; reflexivity | right; simpl in *; lia].
  - intros [[H1 H2] [H|H]]; right; [subst rest; simpl; lia | lia].
Qed.

Lemma letter_from_cons (v : Var) (c0 : ascii) (rest : string) (k r c : nat) :
  letter_from v (String c0 rest) k r c =
  if (r =? v_i v + (if is_DOWN (v_direction v) then k else 0)) &&
     (c =? v_j v + (if is_ACROSS (v_direction v) then k else 0))
  then Some c0
  else letter_from v rest (S k) r c.
Proof.
  unfold letter_from, is_DOWN, is_ACROSS.
  destruct (v_direction v); simpl.
  - rewrite Nat.add_0_r.
    destruct (r =? v_i v) eqn:Er; simpl; [|reflexivity].
    destruct (c =? v_j v + k) eqn:Ec.
    + apply Nat.eqb_eq in Ec. subst c.
      replace (v_j v + k <=? v_j v + k) with true
        by (symmetry; apply Nat.leb_le; lia).
      rewrite Nat.sub_diag. reflexivity.
    + apply Nat.eqb_neq in Ec.
      destruct (v_j v + k <=? c) eqn:L.
      * apply Nat.leb_le in L.
        replace (v_j v + S k <=? c) with true
          by (symmetry; apply Nat.leb_le; lia).
        replace (c - (v_j v + k)) with (S (c - (v_j v + S k))) by lia.
        reflexivity.
      * apply Nat.leb_gt in L.
        replace (v_j v + S k <=? c) with false
          by (symmetry; apply Nat.leb_gt; lia).
        reflexivity.
  - rewrite Nat.add_0_r.
    destruct (c =? v_j v) eqn:Ec0; simpl.
    + rewrite andb_true_r.
      destruct (r =? v_i v + k) eqn:Er.
      * apply Nat.eqb_eq in Er. subst r.
        replace (v_i v + k <=? v_i v + k) with true
          by (symmetry; apply Nat.leb_le; lia).
        rewrite Nat.sub_diag. reflexivity.
      * apply Nat.eqb_neq in Er.
        destruct (v_i v + k <=? r) eqn:L.
        -- apply Nat.leb_le in L.
           replace (v_i v + S k <=? r) with true
             by (symmetry; apply Nat.leb_le; lia).
           replace (r - (v_i v + k)) with (S (r - (v_i v + S k))) by lia.
           reflexivity.
        -- apply Nat.leb_gt in L.
           replace (v_i v + S k <=? r) with false
             by (symmetry; apply Nat.leb_gt; lia).
           reflexivity.
    + rewrite andb_false_r. reflexivity.
Qed.

Lemma write_word_Ok (height width : nat) (v : Var) (chars : string) (k : nat)
    (g : Grid) :
  rectangular height width g ->
  fits_from height width v k chars ->
  exists g', write_word v chars k g = Ok g' /\
             rectangular height width g' /\
             forall r c, cell g' r c =
                         match letter_from v chars k r c with
                         | Some ch => Some (Some ch)
                         | None => cell g r c
                         end.
Proof.
  revert k g. induction chars as [|c0 rest IH]; intros k g R F.
  - exists g. split; [reflexivity|]. split; [exact R|].
    intros r c. unfold letter_from.
    destruct (v_direction v); simpl;
      match goal with |- context [if ?b then _ else _] => destruct b end;
      reflexivity.
  - apply fits_from_cons in F as [[Hi Hj] F'].
    destruct (grid_assign_Ok height width g _ _ c0 R Hi Hj)
      as (g1 & E1 & R1 & C1).
    destruct (IH (S k) g1 R1 F') as (g' & E' & R' & C').
    exists g'. cbn [write_word]. cbv zeta. rewrite E1. cbn [obind].
    split; [exact E'|]. split; [exact R'|].
    intros r c. rewrite C', letter_from_cons, C1.
    destruct (letter_from v rest (S k) r c) as [ch|] eqn:L.
    + destruct ((r =? _) && (c =? _)) eqn:B; [|reflexivity].
      exfalso. apply andb_true_iff in B as [Br Bc].
      apply Nat.eqb_eq in Br, Bc. subst r c.
      revert L. unfold letter_from, is_DOWN, is_ACROSS.
      destruct (v_direction v); simpl; rewrite ?Nat.add_0_r.
      * replace (v_j v + S k <=? v_j v + k) with false
          by (symmetry; apply Nat.leb_gt; lia).
        rewrite andb_false_r. discriminate.
      * replace (v_i v + S k <=? v_i v + k) with false
          by (symmetry; apply Nat.leb_gt; lia).
        rewrite andb_false_r. discriminate.
    + destruct ((r =? _) && (c =? _)); reflexivity.
Qed.

Lemma write_word_range (height width : nat) (v : Var) (chars : string)
    (k : nat) (g g' : Grid) :
  rectangular height width g ->
  write_word v chars k g = Ok g' ->
  fits_from height width v k chars.
Proof.
  revert k g. induction chars as [|c0 rest IH]; intros k g R.
  - intros _. left. reflexivity.
  - cbn [write_word]. cbv zeta.
    destruct (grid_assign g _ _ c0) as [g1|e] eqn:E1; cbn [obind];
      [|discriminate].
    intros E'. destruct (grid_assign_range _ _ _ _ _ _ _ R E1) as [Hi Hj].
    apply fits_from_cons. split; [auto|].
    destruct (grid_assign_Ok height width g _ _ c0 R Hi Hj)
      as (g1' & E1' & R1 & _).
    assert (g1' = g1) by congruence. subst g1'.
    eapply IH; eauto.
Qed.

Lemma write_items_Ok (height width : nat) (items : Assignment) (g : Grid) :
  rectangular height width g ->
  Forall (fun p => fits_from height width (fst p) 0 (snd p)) items ->
  exists g', write_items items g = Ok g' /\
             rectangular height width g' /\
             forall r c, cell g' r c =
                         match letter_at items r c with
                         | Some ch => Some (Some ch)
                         | None => cell g r c
                         end.
Proof.
  revert g. induction items as [|[v word] items IH]; intros g R F.
  - exists g. repeat split; auto. apply R. apply R.
  - inversion F as [|? ? Fv Fi]; subst. simpl in Fv.
    destruct (write_word_Ok height width v word 0 g R Fv)
      as (g1 & E1 & R1 & C1).
    destruct (IH g1 R1 Fi) as (g' & E' & R' & C').
    exists g'. simpl. rewrite E1. simpl. split; [exact E'|].
    split; [exact R'|].
    intros r c. rewrite C', C1.
    destruct (letter_at items r c); reflexivity.
Qed.

Lemma write_items_range (height width : nat) (items : Assignment)
    (g g' : Grid) :
  rectangular height width g ->
  write_items items g = Ok g' ->
  Forall (fun p => fits_from height width (fst p) 0 (snd p)) items.
Proof.
  revert g. induction items as [|[v word] items IH]; intros g R;
    [constructor|].
  simpl. destruct (write_word v word 0 g) as [g1|e] eqn:E1; simpl;
    [|discriminate].
  intros E'. pose proof (write_word_range _ _ _ _ _ _ _ R E1) as Fv.
  constructor; [exact Fv|].
  destruct (write_word_Ok height width v word 0 g R Fv) as (g1' & E1' & R1 & _).
  assert (g1' = g1) by congruence. subst g1'.
  eapply IH; eauto.
Qed.

(** X23: the grid returned by [letter_grid] has [height] rows of [width]
    cells, and each cell holds the letter of the last binding of the
    assignment whose word reaches it, or [None] if no word does. *)
Theorem letter_grid_cells (height width : nat) (a : Assignment) (g : Grid) :
  letter_grid height width a = Ok g ->
  rectangular height width g /\
  forall r c, r < height -> c < width ->
              cell g r c = Some (letter_at a r c).
Proof.
  unfold letter_grid. intros H.
  pose proof (blank_grid_rectangular height width) as R.
  pose proof (write_items_range _ _ _ _ _ R H) as F.
  destruct (write_items_Ok height width a _ R F) as (g' & E & R' & C).
  assert (g' = g) by congruence. subst g'.
  split; [exact R'|]. intros r c Hr Hc.
  rewrite C, blank_grid_cell by assumption.
  destruct (letter_at a r c); reflexivity.
Qed.

Lemma letter_grid_cells_witness :
  rectangular 2 2 [[Some "C"%char; Some "B"%char]; [Some "D"%char; None]] /\
  forall r c, r < 2 -> c < 2 ->
              cell [[Some "C"%char; Some "B"%char]; [Some "D"%char; None]] r c =
              Some (letter_at [(corner_across, "AB"); (corner_down, "CD")] r c).
Proof.
  apply (letter_grid_cells 2 2 [(corner_across, "AB"); (corner_down, "CD")]).
  reflexivity.
Defined.

Lemma list_assign_raises {A : Type} (l : list A) (n : nat) (x : A) (e : exn) :
  list_assign l n x = Raise e -> e = IndexError.
Proof.
  revert n. induction l as [|y l IH]; simpl; intros n; [congruence|].
  destruct n as [|n]; [discriminate|].
  destruct (list_assign l n x) as [l1|e1] eqn:E; simpl; [discriminate|].
  intros [= <-]. eapply IH. exact E.
Qed.

Lemma grid_assign_raises (g : Grid) (i j : nat) (ch : ascii) (e : exn) :
  grid_assign g i j ch = Raise e -> e = IndexError.
Proof.
  unfold grid_assign, list_index.
  destruct (nth_error g i) as [row|]; simpl; [|congruence].
  destruct (list_assign row j (Some ch)) as [row'|e1] eqn:E; simpl.
  - apply list_assign_raises.
  - intros [= <-]. eapply list_assign_raises. exact E.
Qed.

Lemma write_word_raises (v : Var) (chars : string) (k : nat) (g : Grid)
    (e : exn) :
  write_word v chars k g = Raise e -> e = IndexError.
Proof.
  revert k g. induction chars as [|c0 rest IH]; intros k g; [discriminate|].
  cbn [write_word]. cbv zeta.
  destruct (grid_assign g _ _ c0) as [g1|e1] eqn:E; cbn [obind].
  - apply IH.
  - intros [= <-]. eapply grid_assign_raises. exact E.
Qed.

Lemma write_items_raises (items : Assignment) (g : Grid) (e : exn) :
  write_items items g = Raise e -> e = IndexError.
Proof.
  revert g. induction items as [|[v word] items IH]; intros g; [discriminate|].
  simpl. destruct (write_word v word 0 g) as [g1|e1] eqn:E; simpl.
  - apply IH.
  - intros [= <-]. eapply write_word_raises. exact E.
Qed.

(** X24: [letter_grid] returns a grid exactly when every bound word, laid
    from the first cell of its variable in the variable's direction, stays
    inside the grid; otherwise it raises [IndexError]. The empty word always
    fits. *)
Theorem letter_grid_returns_iff_fits (height width : nat) (a : Assignment) :
  ((exists g, letter_grid height width a = Ok g) <->
   Forall (fun p => fits_from height width (fst p) 0 (snd p)) a) /\
  (letter_grid height width a = Raise IndexError <->
   ~ Forall (fun p => fits_from height width (fst p) 0 (snd p)) a).
Proof.
  assert (I : (exists g, letter_grid height width a = Ok g) <->
              Forall (fun p => fits_from height width (fst p) 0 (snd p)) a).
  { unfold letter_grid. split.
    - intros [g H]. eapply write_items_range; [|exact H].
      apply blank_grid_rectangular.
    - intros F.
      destruct (write_items_Ok height width a _
                  (blank_grid_rectangular height width) F) as (g & E & _).
      eauto. }
  split; [exact I|]. rewrite <- I. split.
  - intros H [g Hg]. congruence.
  - intros N. destruct (letter_grid height width a) as [g|e] eqn:E.
    + exfalso. apply N. eauto.
    + f_equal. unfold letter_grid in E. eapply write_items_raises. exact E.
Qed.

Lemma letter_at_Some (a : Assignment) (r c : nat) (ch : ascii) :
  letter_at a r c = Some ch ->
  exists q, In q a /\ letter_from (fst q) (snd q) 0 r c = Some ch.
Proof.
  induction a as [|[v word] a IH]; simpl; [discriminate|].
  destruct (letter_at a r c) as [ch'|].
  - intros [= <-]. destruct (IH eq_refl) as [q [Hq L]]. eauto.
  - intros H. exists (v, word). auto.
Qed.

Lemma letter_at_covered (a : Assignment) (p : Var * string) (r c : nat)
    (x : ascii) :
  In p a -> letter_from (fst p) (snd p) 0 r c = Some x ->
  exists y, letter_at a r c = Some y.
Proof.
  induction a as [|[v word] a IH]; simpl; [tauto|].
  intros [<-|Hp] L.
  - simpl in L. rewrite L. destruct (letter_at a r c); eauto.
  - destruct (IH Hp L) as [y Hy]. rewrite Hy. eauto.
Qed.

Lemma letter_from_own_cell (v : Var) (word : string) (k : nat) :
  letter_from v word 0 (row_of v k) (col_of v k) = String.get k word.
Proof.
  unfold letter_from, row_of, col_of, is_DOWN, is_ACROSS.
  destruct (v_direction v); simpl; rewrite !Nat.add_0_r, Nat.eqb_refl; simpl.
  - replace (v_j v <=? v_j v + k) with true
      by (symmetry; apply Nat.leb_le; lia).
    f_equal. lia.
  - replace (v_i v <=? v_i v + k) with true
      by (symmetry; apply Nat.leb_le; lia).
    f_equal. lia.
Qed.

(** X25: when the bound words agree on every cell that two of them reach,
    each word can be read back from the grid: the [k]-th cell of a bound
    variable holds the [k]-th letter of its word. *)
Theorem letter_grid_reads_back (height width : nat) (a : Assignment)
    (g : Grid) (v : Var) (word : string) (k : nat) (ch : ascii) :
  letter_grid height width a = Ok g ->
  agree_on_cells a ->
  In (v, word) a ->
  String.get k word = Some ch ->
  cell g (row_of v k) (col_of v k) = Some (Some ch).
Proof.
  unfold letter_grid. intros H Ag Hin Hk.
  pose proof (blank_grid_rectangular height width) as R.
  pose proof (write_items_range _ _ _ _ _ R H) as F.
  destruct (write_items_Ok height width a _ R F) as (g' & E & _ & C).
  assert (g' = g) by congruence. subst g'.
  assert (L : letter_from v word 0 (row_of v k) (col_of v k) = Some ch)
    by (rewrite letter_from_own_cell; exact Hk).
  destruct (letter_at_covered a (v, word) _ _ ch Hin L) as [y Hy].
  rewrite C, Hy. do 2 f_equal.
  destruct (letter_at_Some a _ _ y Hy) as [q [Hq Lq]].
  exact (Ag q (v, word) _ _ y ch Hq Hin Lq L).
Qed.

Lemma letter_grid_reads_back_witness :
  cell [[Some "A"%char; Some "B"%char]; [Some "C"%char; None]]
       (row_of corner_down 1) (col_of corner_down 1) = Some (Some "C"%char).
Proof.
  apply (letter_grid_reads_back
           2 2 [(corner_across, "AB"); (corner_down, "AC")]
           [[Some "A"%char; Some "B"%char]; [Some "C"%char; None]]
           corner_down "AC" 1 "C"%char).
  - reflexivity.
  - intros p q r c x y [<-|[<-|[]]] [<-|[<-|[]]];
      destruct r as [|[|r]]; destruct c as [|[|c]]; cbv;
      congruence.
  - simpl. auto.
  - reflexivity.
Defined.

(** ** [solve] returns whenever [ac3] does *)

(** X26: [backtrack] always terminates, so [solve] returns as soon as its
    call of [ac3] does: if [ac3] comes to an end on the node-consistent
    domains, so does [solve]. *)
Theorem solve_returns_when_ac3_does (n : nat) (cw : Crossword)
    (doms : Domains) (res : outcome bool * Domains) :
  ac3 n cw None (enforce_node_consistency doms) = Some res ->
  exists out,
    solve (n + S (List.length (variables cw))) cw doms = Some out.
Proof.
  intros H. unfold solve.
  assert (H' : ac3 (n + S (List.length (variables cw))) cw None
                   (enforce_node_consistency doms) = Some res).
  { unfold ac3 in *. eapply ac3_loop_fuel_mono; [|exact H]. lia. }
  rewrite H'. destruct res as [[b|e] d2]; [|eauto].
  destruct (backtrack_returns (n + S (List.length (variables cw))) cw d2 [])
    as [[r a'] B].
  - unfold unassigned_variables.
    pose proof (filter_length_le
                  (fun v => negb (dict_mem Var_eqb ([] : Assignment) v))
                  (variables cw)).
    lia.
  - rewrite B. eauto.
Qed.

Lemma solve_returns_when_ac3_does_witness :
  exists out,
    solve (3 + S (List.length (variables corner))) corner
          (init_domains corner) = Some out.
Proof.
  apply (solve_returns_when_ac3_does
           3 corner (init_domains corner)
           (Ok true, enforce_node_consistency (init_domains corner))).
  reflexivity.
Defined.
